(** * pegger: a shallow embedding of the matching engine of [pegger.py]

    The Python module is a small backtracking matcher.  Patterns are Python
    objects (strings, tuples, instances of the matcher classes, callables);
    results are Python lists and strings.  The embedding below keeps the
    dynamic typing of the results (a [value] is a string or a list), the
    exceptions of the source, and the control flow of each matcher. *)

From Stdlib Require Import String Ascii List Bool Arith Lia.
Import ListNotations.
Local Open Scope list_scope.
Local Open Scope string_scope.
Set Warnings "-register-all".

(** ** Python values and exceptions *)

(** The results built by the matchers are lists and strings only. *)
Inductive value : Type :=
| VStr (s : string)
| VList (l : list value).

(** [NoPatternFound] and [UnknownMatcherType] are the module's own
    exceptions; [IndexError] is the one Python raises on [x[i]] out of
    range. *)
Inductive exn : Type :=
| NoPatternFound
| UnknownMatcherType
| IndexError.

(** The outcome of running a piece of the program: a returned value, a raised
    exception, or [Diverge] when the fuel given to the interpreter ran out. *)
Inductive outcome (A : Type) : Type :=
| Ok (a : A)
| Raise (e : exn)
| Diverge.
Arguments Ok {A} a.
Arguments Raise {A} e.
Arguments Diverge {A}.

Definition bind {A B : Type} (m : outcome A) (k : A -> outcome B) : outcome B :=
  match m with
  | Ok a => k a
  | Raise e => Raise e
  | Diverge => Diverge
  end.

Notation "x <- m ;; k" := (bind m (fun x => k))
  (at level 61, m at next level, right associativity).
Notation "' pat <- m ;; k" := (bind m (fun x => match x with pat => k end))
  (at level 61, pat pattern, m at next level, right associativity).

(** [bool(v)]: an empty string and an empty list are false. *)
Definition truthy (v : value) : bool :=
  match v with
  | VStr s => negb (s =? "")
  | VList l => match l with [] => false | _ :: _ => true end
  end.

(** [v[i]] for a non-negative [i]: an element of a list, a one-character
    string of a string. *)
Definition getitem (v : value) (i : nat) : outcome value :=
  match v with
  | VStr s =>
      match String.get i s with
      | Some c => Ok (VStr (String c ""))
      | None => Raise IndexError
      end
  | VList l =>
      match nth_error l i with
      | Some x => Ok x
      | None => Raise IndexError
      end
  end.

(** [v == s] for a string constant [s]. *)
Definition eq_str (v : value) (s : string) : bool :=
  match v with
  | VStr t => t =? s
  | VList _ => false
  end.

(** ** String operations of Python used by the source *)

Definition nl : string := String "010"%char "".
Definition space : ascii := " "%char.

(** [text.startswith(p)] *)
Definition startswith (text p : string) : bool := String.prefix p text.

(** [text[n:]] *)
Fixpoint drop (n : nat) (s : string) : string :=
  match n, s with
  | 0, _ => s
  | S _, "" => ""
  | S n', String _ s' => drop n' s'
  end.

(** [text.split("\n")]: [split_acc cur s] splits [s], [cur] being the part of
    the current line already read. *)
Fixpoint split_acc (cur : string) (s : string) : list string :=
  match s with
  | "" => [cur]
  | String c s' =>
      if Ascii.eqb c "010"%char then cur :: split_acc "" s'
      else split_acc (cur ++ String c "") s'
  end.

Definition split_lines (s : string) : list string := split_acc "" s.

(** [sep.join(ls)] *)
Definition join (sep : string) (ls : list string) : string := String.concat sep ls.

(** [c in letters] for a one-character [c] *)
Fixpoint char_in (c : ascii) (letters : string) : bool :=
  match letters with
  | "" => false
  | String d rest => Ascii.eqb c d || char_in c rest
  end.

(** ** Patterns *)

(** A pattern is whatever Python object is handed to [do_parse].  [Str] is a
    [str] or [unicode], [Tuple] a tuple, the next eight are instances of the
    matcher classes with their [pattern], [options] or [letters] attribute,
    [Callable f] is a function object (a grammar rule), and [Other] is any
    object of a type that is not a key of [matchers]. *)
Inductive pattern : Type :=
| Str (s : string)
| Tuple (ps : list pattern)
| Some_ (c : string)
| Words (letters : string)
| Ignore (p : pattern)
| OneOf (options : list pattern)
| Many (options : list pattern)
| Not (s : string)
| Optional (p : pattern)
| Indented (p : pattern)
| Callable (f : nat)
| Other.

(** [string.uppercase + string.lowercase + " .,"] *)
Definition default_letters : string :=
  "ABCDEFGHIJKLMNOPQRSTUVWXYZ" ++ "abcdefghijklmnopqrstuvwxyz" ++ " .,".

(** [Words.__init__]: an absent or empty argument keeps the class
    attribute. *)
Definition Words_init (letters : option string) : pattern :=
  match letters with
  | Some l => if l =? "" then Words default_letters else Words l
  | None => Words default_letters
  end.

(** A function object: its [__name__] and the pattern a call returns. *)
Record func : Type := { __name__ : string; call : pattern }.

(** What a matcher returns: the match and the rest of the text. *)
Definition parsed : Type := (value * string)%type.

(** ** The matching engine *)

Section Engine.

(** The function objects of the grammar: [funcs f] is the function whose
    identity is [f].  Calling it returns the same pattern every time. *)
Variable funcs : nat -> func.

(** [get_pattern_info]: a callable is called once and gives its name to the
    match, except that the name of a lambda is dropped.  The third component
    of the source's triple, [type(pattern)], is the constructor of the
    pattern returned here. *)
Definition get_pattern_info (pat : pattern) : pattern * string :=
  match pat with
  | Callable f =>
      let pattern_name := __name__ (funcs f) in
      (call (funcs f), if pattern_name =? "<lambda>" then "" else pattern_name)
  | _ => (pat, "")
  end.

(** *** Matchers that do not call back into [do_parse] *)

(** The loop of [match_some]: [rest] loses its head as long as the head is
    equal to [pattern.pattern]. *)
Fixpoint some_loop (pat : string) (matched : string) (rest : string) : string * string :=
  match rest with
  | "" => (matched, rest)
  | String char rest' =>
      if pat =? String char "" then some_loop pat (matched ++ String char "") rest'
      else (matched, rest)
  end.

Definition match_some (text : string) (pat : string) (name : string) : outcome parsed :=
  let '(matched, rest) := some_loop pat "" text in
  if matched =? "" then Raise NoPatternFound
  else Ok (VList [VStr name; VStr matched], rest).

(** The loop of [match_words]. *)
Fixpoint words_loop (letters : string) (matched : string) (rest : string) : string * string :=
  match rest with
  | "" => (matched, rest)
  | String char rest' =>
      if char_in char letters then words_loop letters (matched ++ String char "") rest'
      else (matched, rest)
  end.

Definition match_words (text : string) (letters : string) (name : string) : outcome parsed :=
  let '(matched, rest) := words_loop letters "" text in
  if matched =? "" then Raise NoPatternFound
  else Ok (VList [VStr name; VStr matched], rest).

Definition match_text (text : string) (pat : string) (name : string) : outcome parsed :=
  if startswith text pat then
    let rest := drop (String.length pat) text in
    Ok (VList [VStr name; VStr pat], rest)
  else Raise NoPatternFound.

(** The loop of [match_not]: one character at a time, until the text is
    exhausted or what is left starts with [pattern.pattern]. *)
Fixpoint not_loop (pat : string) (matched : string) (rest : string) : string * string :=
  match rest with
  | "" => (matched, rest)
  | String char rest' =>
      if startswith rest pat then (matched, rest)
      else not_loop pat (matched ++ String char "") rest'
  end.

Definition match_not (text : string) (pat : string) (name : string) : outcome parsed :=
  let '(matched, rest) := not_loop pat "" text in
  if matched =? "" then Raise NoPatternFound
  else Ok (VList [VStr name; VStr matched], rest).

(** *** Matchers that call [do_parse]

    They take the recursive call as the parameter [do_parse], so that each
    one reads like its source and can be reasoned about on its own. *)

Section Matchers.

Variable do_parse : string -> pattern -> outcome parsed.

(** The [for] loop of [match_tuple]: an empty match is not appended. *)
Fixpoint tuple_loop (ps : list pattern) (result : list value) (rest : string)
  : outcome (list value * string) :=
  match ps with
  | [] => Ok (result, rest)
  | sub_pattern :: ps' =>
      '(m, rest) <- do_parse rest sub_pattern ;;
      if truthy m then tuple_loop ps' (result ++ [m])%list rest
      else tuple_loop ps' result rest
  end.

Definition match_tuple (text : string) (ps : list pattern) (name : string) : outcome parsed :=
  '(result, rest) <- tuple_loop ps [] text ;;
  result <- (if Nat.eqb (List.length result) 1 then getitem (VList result) 0 else Ok (VList result)) ;;
  r0 <- getitem result 0 ;;
  result <- (if negb (truthy r0) then getitem result 1 else Ok result) ;;
  Ok (VList [VStr name; result], rest).

Definition match_ignore (text : string) (p : pattern) (name : string) : outcome parsed :=
  '(_, rest) <- do_parse text p ;;
  Ok (VList [], rest).

(** [match_one_of]: [NoPatternFound] from an option moves on to the next
    one, and so does an empty match. *)
Fixpoint match_one_of (text : string) (options : list pattern) (name : string)
  : outcome parsed :=
  match options with
  | [] => Raise NoPatternFound
  | sub_pattern :: options' =>
      match do_parse text sub_pattern with
      | Raise NoPatternFound => match_one_of text options' name
      | Raise e => Raise e
      | Diverge => Diverge
      | Ok (m, rest) =>
          if truthy m then
            unwrap <- (if negb (truthy m) then Ok true
                       else m0 <- getitem m 0 ;; Ok (eq_str m0 "<lambda>")) ;;
            if (unwrap : bool) then m1 <- getitem m 1 ;; Ok (m1, rest)
            else Ok (m, rest)
          else match_one_of text options' name
      end
  end.

(** The test of [match_many] on a match it keeps: a match whose first
    component is empty or is the name of a lambda is replaced by its second
    component. *)
Definition many_unlabel (m : value) : outcome value :=
  m0 <- getitem m 0 ;;
  if negb (truthy m0) || eq_str m0 "<lambda>" then getitem m 1 else Ok m.

(** The local variables of [match_many] that its loops update. *)
Record many_state : Type :=
  { st_result : list value; st_rest : string; st_match_made : bool }.

(** The [for] loop of [match_many], one pass over the options. *)
Fixpoint many_for (options : list pattern) (st : many_state) : outcome many_state :=
  match options with
  | [] => Ok st
  | sub_pattern :: options' =>
      match do_parse (st_rest st) sub_pattern with
      | Raise NoPatternFound => many_for options' st
      | Raise e => Raise e
      | Diverge => Diverge
      | Ok (m, rest) =>
          if truthy m then
            m <- many_unlabel m ;;
            many_for options'
              {| st_result := (st_result st ++ [m])%list; st_rest := rest; st_match_made := true |}
          else
            many_for options'
              {| st_result := st_result st; st_rest := rest;
                 st_match_made := st_match_made st |}
      end
  end.

(** The [while] loop of [match_many]; [fuel] bounds the number of passes. *)
Fixpoint many_while (fuel : nat) (options : list pattern) (result : list value)
  (rest : string) : outcome (list value * string) :=
  if rest =? "" then Ok (result, rest)
  else
    match fuel with
    | 0 => Diverge
    | S fuel' =>
        st <- many_for options
                {| st_result := result; st_rest := rest; st_match_made := false |} ;;
        if negb (st_match_made st) then Ok (st_result st, st_rest st)
        else many_while fuel' options (st_result st) (st_rest st)
    end.

Definition match_many (fuel : nat) (text : string) (options : list pattern) (name : string)
  : outcome parsed :=
  '(result, rest) <- many_while fuel options [] text ;;
  match result with
  | [] => Raise NoPatternFound
  | _ :: _ =>
      result <- (if Nat.eqb (List.length result) 1 then getitem (VList result) 0 else Ok (VList result)) ;;
      if negb (name =? "") then Ok (VList [VStr name; result], rest)
      else Ok (result, rest)
  end.

Definition match_optional (text : string) (p : pattern) (name : string) : outcome parsed :=
  match do_parse text p with
  | Raise NoPatternFound => Ok (VList [], text)
  | r => r
  end.

(** The first loop of [match_indented]: the spaces the text starts with. *)
Fixpoint indent_loop (text : string) (indent : string) : string :=
  match text with
  | "" => indent
  | String char text' =>
      if Ascii.eqb char space then indent_loop text' (indent ++ String char "")
      else indent
  end.

(** The second loop of [match_indented].  [other_lines] starts as a copy of
    [lines] and loses its head for every line taken. *)
Fixpoint indented_loop (indent : string) (lines : list string)
  (other_lines indented_lines : list string) : outcome (list string * list string) :=
  match lines with
  | [] => Ok (other_lines, indented_lines)
  | line :: lines' =>
      if startswith line indent then
        match other_lines with
        | [] => Raise IndexError
        | popped :: other_lines' =>
            let unindented_line := drop (String.length indent) popped in
            indented_loop indent lines' other_lines' (indented_lines ++ [unindented_line])%list
        end
      else Ok (other_lines, indented_lines)
  end.

Definition match_indented (text : string) (p : pattern) (name : string) : outcome parsed :=
  if startswith text nl then
    let text := drop 1 text in
    let indent := indent_loop text "" in
    if indent =? "" then Raise NoPatternFound
    else
      let lines := split_lines text in
      '(other_lines, indented_lines) <- indented_loop indent lines lines [] ;;
      let indented_text := nl ++ join nl indented_lines in
      let other_rest := join nl other_lines in
      '(indented_match, indented_rest) <- do_parse indented_text p ;;
      let rest := indented_rest ++ nl ++ other_rest in
      Ok (indented_match, rest)
  else Raise NoPatternFound.

End Matchers.

(** [do_parse]: the dispatch on the type of the pattern.  [fuel] bounds the
    depth of the calls and the passes of every [match_many] below; a type
    that is not a key of [matchers] raises [KeyError], turned into
    [UnknownMatcherType]. *)
Fixpoint do_parse (fuel : nat) (text : string) (pat : pattern) : outcome parsed :=
  match fuel with
  | 0 => Diverge
  | S fuel' =>
      let '(pat, pattern_name) := get_pattern_info pat in
      match pat with
      | Str s => match_text text s pattern_name
      | Tuple ps => match_tuple (do_parse fuel') text ps pattern_name
      | Some_ c => match_some text c pattern_name
      | Words letters => match_words text letters pattern_name
      | Ignore p => match_ignore (do_parse fuel') text p pattern_name
      | OneOf options => match_one_of (do_parse fuel') text options pattern_name
      | Many options => match_many (do_parse fuel') fuel' text options pattern_name
      | Not s => match_not text s pattern_name
      | Optional p => match_optional (do_parse fuel') text p pattern_name
      | Indented p => match_indented (do_parse fuel') text p pattern_name
      | Callable _ | Other => Raise UnknownMatcherType
      end
  end.

Definition parse_string (fuel : nat) (text : string) (pat : pattern) : outcome value :=
  '(m, _) <- do_parse fuel text pat ;;
  Ok m.

End Engine.

(** A grammar without named rules: every function object is a lambda. *)
Definition no_rules : nat -> func :=
  fun _ => {| __name__ := "<lambda>"; call := Other |}.

(** A grammar all of whose function objects are named [name] and return
    [p]. *)
Definition one_rule (name : string) (p : pattern) : nat -> func :=
  fun _ => {| __name__ := name; call := p |}.

(** ** Descriptions of the repetition, to compare [match_many] with *)

Section Repetition.

Variable do_parse : string -> pattern -> outcome parsed.

(** *** The repetition with a restart after every acceptance

    At the current position the options are tried in list order and the
    first one that succeeds is accepted; its unlabelled match is appended and
    the scan starts again from the first option at the new position.  The
    repetition stops at the first position where no option succeeds. *)

Fixpoint first_success (rest : string) (options : list pattern) : option parsed :=
  match options with
  | [] => None
  | sub_pattern :: options' =>
      match do_parse rest sub_pattern with
      | Ok r => Some r
      | _ => first_success rest options'
      end
  end.

Fixpoint restart_scan (fuel : nat) (options : list pattern) (result : list value)
  (rest : string) : outcome (list value * string) :=
  match fuel with
  | 0 => Diverge
  | S fuel' =>
      match first_success rest options with
      | None => Ok (result, rest)
      | Some (m, rest') =>
          m <- many_unlabel m ;;
          restart_scan fuel' options (result ++ [m])%list rest'
      end
  end.

(** *** The repetition in passes

    [pass options rest accepted rest']: one pass tries every option once, in
    list order.  An option that raises [NoPatternFound] is skipped; an option
    that returns an empty match moves the position and is not accepted; an
    option that returns a non-empty match is accepted, and the next option is
    tried at the position it leaves. *)
Inductive pass : list pattern -> string -> list value -> string -> Prop :=
| pass_done rest :
    pass [] rest [] rest
| pass_skip sub_pattern options rest accepted rest' :
    do_parse rest sub_pattern = Raise NoPatternFound ->
    pass options rest accepted rest' ->
    pass (sub_pattern :: options) rest accepted rest'
| pass_empty sub_pattern options rest m rest1 accepted rest' :
    do_parse rest sub_pattern = Ok (m, rest1) ->
    truthy m = false ->
    pass options rest1 accepted rest' ->
    pass (sub_pattern :: options) rest accepted rest'
| pass_accept sub_pattern options rest m rest1 v accepted rest' :
    do_parse rest sub_pattern = Ok (m, rest1) ->
    truthy m = true ->
    many_unlabel m = Ok v ->
    pass options rest1 accepted rest' ->
    pass (sub_pattern :: options) rest (v :: accepted) rest'.

(** [passes options rest result rest']: passes are made while text is left,
    until one accepts nothing. *)
Inductive passes (options : list pattern) : string -> list value -> string -> Prop :=
| passes_exhausted :
    passes options "" [] ""
| passes_stop rest rest' :
    rest <> "" ->
    pass options rest [] rest' ->
    passes options rest [] rest'
| passes_again rest accepted rest1 result rest' :
    rest <> "" ->
    pass options rest accepted rest1 ->
    accepted <> [] ->
    passes options rest1 result rest' ->
    passes options rest (accepted ++ result)%list rest'.

(** What [match_many] returns for the list of accepted matches: a single
    match stands for the list, and a name wraps the whole. *)
Definition many_value (name : string) (result : list value) : value :=
  let v := match result with [x] => x | _ => VList result end in
  if name =? "" then v else VList [VStr name; v].

End Repetition.

(** ** Descriptions of an indented block *)

(** A string made of spaces only. *)
Fixpoint all_spaces (s : string) : bool :=
  match s with
  | "" => true
  | String c s' => Ascii.eqb c space && all_spaces s'
  end.

(** ** Description of the options [match_one_of] does not return *)

(** An option is passed over by [match_one_of] when it raises
    [NoPatternFound] or returns an empty match. *)
Definition passed_over (parse : string -> pattern -> outcome parsed)
  (text : string) (q : pattern) : Prop :=
  parse text q = Raise NoPatternFound
  \/ exists m rest, parse text q = Ok (m, rest) /\ truthy m = false.

(** ** Runs with different amounts of fuel *)

(** [extends f g]: wherever the run [f] ends, the run [g] ends in the same
    way. *)
Definition extends (f g : string -> pattern -> outcome parsed) : Prop :=
  forall text p, f text p <> Diverge -> g text p = f text p.

(** ** Shapes of strings, values and patterns, for the properties below *)

(** Every character of the string passes the test. *)
Fixpoint all_chars (test : ascii -> bool) (s : string) : bool :=
  match s with
  | "" => true
  | String c s' => test c && all_chars test s'
  end.

(** A value in which every list, at any depth, has at least two elements. *)
Fixpoint well_formed (v : value) : bool :=
  match v with
  | VStr _ => true
  | VList l => (2 <=? List.length l)%nat && forallb well_formed l
  end.

(** A pattern in which no [Indented] occurs (rules are not followed). *)
Fixpoint indent_free (p : pattern) : bool :=
  match p with
  | Tuple ps | OneOf ps | Many ps => forallb indent_free ps
  | Ignore q | Optional q => indent_free q
  | Indented _ => false
  | Str _ | Some_ _ | Words _ | Not _ | Callable _ | Other => true
  end.

(** A pattern in which neither [Indented] nor the empty literal occurs
    (rules are not followed). *)
Fixpoint productive (p : pattern) : bool :=
  match p with
  | Str s => negb (s =? "")
  | Tuple ps | OneOf ps | Many ps => forallb productive ps
  | Ignore q | Optional q => productive q
  | Indented _ => false
  | Some_ _ | Words _ | Not _ | Callable _ | Other => true
  end.

(** A pattern in which no tuple occurs (rules are not followed). *)
Fixpoint tuple_free (p : pattern) : bool :=
  match p with
  | Tuple _ => false
  | OneOf ps | Many ps => forallb tuple_free ps
  | Ignore q | Optional q | Indented q => tuple_free q
  | Str _ | Some_ _ | Words _ | Not _ | Callable _ | Other => true
  end.

(** A pattern in which no callable occurs. *)
Fixpoint rule_free (p : pattern) : bool :=
  match p with
  | Callable _ => false
  | Tuple ps | OneOf ps | Many ps => forallb rule_free ps
  | Ignore q | Optional q | Indented q => rule_free q
  | Str _ | Some_ _ | Words _ | Not _ | Other => true
  end.

(** The depth of nesting of a pattern. *)
Fixpoint depth (p : pattern) : nat :=
  match p with
  | Tuple ps | OneOf ps | Many ps =>
      S (fold_right (fun q d => Nat.max (depth q) d) 0 ps)
  | Ignore q | Optional q | Indented q => S (depth q)
  | Str _ | Some_ _ | Words _ | Not _ | Callable _ | Other => 1
  end.

(** ** What a run consumes *)

(** [shaped strict p]: the shape asked of a pattern, with or without the
    ban on empty literals. *)
Definition shaped (strict : bool) (p : pattern) : bool :=
  if strict then productive p else indent_free p.

(** [consumes strict parse p]: whenever [parse] matches [p], the rest is
    what follows a consumed part of the text and, when [strict], a non-empty
    match has consumed at least one character. *)
Definition consumes (strict : bool) (parse : string -> pattern -> outcome parsed)
  (p : pattern) : Prop :=
  forall text m rest,
    parse text p = Ok (m, rest) ->
    exists consumed,
      text = consumed ++ rest /\ (strict = true -> truthy m = true -> consumed <> "").

(** [ends_within parse bound p]: [parse] ends on [p] for every text of at
    most [bound] characters. *)
Definition ends_within (parse : string -> pattern -> outcome parsed) (bound : nat)
  (p : pattern) : Prop :=
  forall text, String.length text <= bound -> parse text p <> Diverge.

(** ** The matches a run returns *)

(** The empty list, or a value in which every list has two elements or
    more. *)
Definition empty_or_well_formed (m : value) : bool :=
  match m with
  | VList [] => true
  | _ => well_formed m
  end.

(** The value a tuple wraps under its name, for the list [result] of the
    non-empty matches of its sub-patterns: the list itself when it has two
    matches or more. *)
Definition tuple_keeps_list (result : list value) (v : value) : Prop :=
  2 <= List.length result -> v = VList result.

(** ** The name of a rule in the match of its body *)

(** The patterns whose matcher puts the name in front of the value. *)
Definition wraps_name (p : pattern) : bool :=
  match p with
  | Str _ | Tuple _ | Some_ _ | Words _ | Not _ => true
  | _ => false
  end.

(** The patterns whose matcher does not use the name. *)
Definition drops_name (p : pattern) : bool :=
  match p with
  | Ignore _ | OneOf _ | Optional _ | Indented _ => true
  | _ => false
  end.

(** ** The engine over a store of Python objects

    The functions above pass patterns and matches as values.  In Python
    they are references: an instance of a matcher class is an object whose
    attribute can be assigned, a match is a list that [append] updates in
    place, and a rule is a function that runs arbitrary code when it is
    called.  The definitions below run the same engine over a store of such
    objects, so that what a parse writes, and what a second parse sees of
    it, can be stated. *)

(** The matcher classes that have a matcher. *)
Inductive matcher_class : Type :=
| cSome | cIgnore | cNot | cOneOf | cMany | cWords | cOptional | cIndented.

(** A Python value: a string or a tuple (both immutable), a reference to a
    list or to an instance in the store, a function object, or any other
    object. *)
Inductive pyval : Type :=
| PyStr (s : string)
| PyTuple (items : list pyval)
| PyRef (a : nat)
| PyFunc (f : nat)
| PyOther.

(** An object of the store: a list, or an instance of a matcher class with
    its attribute ([pattern], [options] or [letters]). *)
Inductive pyobj : Type :=
| PyList (items : list pyval)
| PyInst (c : matcher_class) (attr : pyval).

Definition store : Type := list pyobj.

(** A function object: its [__name__] and what a call does, which is any
    change of the store and any returned value. *)
Record producer : Type :=
  { p_name : string; p_call : store -> pyval * store }.

(** How a run over the store ends: with a value, with an exception (the
    store is what it was when the exception was raised), by leaving the
    modelled fragment of Python ([Fault]: an operation on an object of a
    type the source is not written for, which raises [TypeError] or
    [AttributeError]), or not at all within the fuel. *)
Inductive run (A : Type) : Type :=
| Done (a : A) (s : store)
| Raised (e : exn) (s : store)
| Fault
| Diverged.
Arguments Done {A} a s.
Arguments Raised {A} e s.
Arguments Fault {A}.
Arguments Diverged {A}.

Definition M (A : Type) : Type := store -> run A.

Definition ret {A : Type} (a : A) : M A := fun s => Done a s.

Definition run_bind {A B : Type} (m : M A) (k : A -> M B) : M B :=
  fun s =>
    match m s with
    | Done a s' => k a s'
    | Raised e s' => Raised e s'
    | Fault => Fault
    | Diverged => Diverged
    end.

Notation "x <~ m ;; k" := (run_bind m (fun x => k))
  (at level 61, m at next level, right associativity).
Notation "' pat <~ m ;; k" := (run_bind m (fun x => match x with pat => k end))
  (at level 61, pat pattern, m at next level, right associativity).

Definition raise {A : Type} (e : exn) : M A := fun s => Raised e s.

Definition fault {A : Type} : M A := fun _ => Fault.

(** The outcome of a computation that does not touch the store. *)
Definition lift {A : Type} (o : outcome A) : M A :=
  fun s =>
    match o with
    | Ok a => Done a s
    | Raise e => Raised e s
    | Diverge => Diverged
    end.

(** [try: m except NoPatternFound: handler] *)
Definition try_except {A : Type} (m : M A) (handler : M A) : M A :=
  fun s =>
    match m s with
    | Raised NoPatternFound s' => handler s'
    | r => r
    end.

(** A new object, at the first free address. *)
Definition alloc (o : pyobj) : M pyval :=
  fun s => Done (PyRef (List.length s)) (s ++ [o])%list.

(** The object a reference points to. *)
Definition deref (v : pyval) : M pyobj :=
  fun s =>
    match v with
    | PyRef a =>
        match nth_error s a with
        | Some o => Done o s
        | None => Fault
        end
    | _ => Fault
    end.

(** The store with the object at address [a] replaced. *)
Fixpoint set_nth (s : store) (a : nat) (o : pyobj) : store :=
  match s, a with
  | [], _ => []
  | _ :: s', 0 => o :: s'
  | x :: s', S a' => x :: set_nth s' a' o
  end.

(** [v.append(x)]: the list is updated in place. *)
Definition list_append (v : pyval) (x : pyval) : M unit :=
  fun s =>
    match v with
    | PyRef a =>
        match nth_error s a with
        | Some (PyList items) => Done tt (set_nth s a (PyList (items ++ [x])%list))
        | _ => Fault
        end
    | _ => Fault
    end.

(** [v.pattern], [v.options] or [v.letters]. *)
Definition get_attr (v : pyval) : M pyval :=
  o <~ deref v ;;
  match o with
  | PyInst _ attr => ret attr
  | PyList _ => fault
  end.

Definition nonempty {A : Type} (l : list A) : bool :=
  match l with [] => false | _ :: _ => true end.

(** [bool(v)] *)
Definition is_true (v : pyval) : M bool :=
  match v with
  | PyStr s => ret (negb (s =? ""))
  | PyTuple items => ret (nonempty items)
  | PyRef _ =>
      o <~ deref v ;;
      match o with
      | PyList items => ret (nonempty items)
      | PyInst _ _ => ret true
      end
  | PyFunc _ => ret true
  | PyOther => fault
  end.

(** [len(v)] *)
Definition py_len (v : pyval) : M nat :=
  match v with
  | PyStr s => ret (String.length s)
  | PyTuple items => ret (List.length items)
  | PyRef _ =>
      o <~ deref v ;;
      match o with
      | PyList items => ret (List.length items)
      | PyInst _ _ => fault
      end
  | _ => fault
  end.

Definition item_of (items : list pyval) (i : nat) : M pyval :=
  match nth_error items i with
  | Some x => ret x
  | None => raise IndexError
  end.

(** [v[i]] *)
Definition py_getitem (v : pyval) (i : nat) : M pyval :=
  match v with
  | PyStr s =>
      match String.get i s with
      | Some c => ret (PyStr (String c ""))
      | None => raise IndexError
      end
  | PyTuple items => item_of items i
  | PyRef _ =>
      o <~ deref v ;;
      match o with
      | PyList items => item_of items i
      | PyInst _ _ => fault
      end
  | _ => fault
  end.

(** [v == s] for a string constant [s]. *)
Definition py_eq_str (v : pyval) (s : string) : bool :=
  match v with
  | PyStr t => t =? s
  | _ => false
  end.

Section RunEngine.

(** The function objects of the program. *)
Variable producers : nat -> producer.

(** [get_pattern_info]: a callable is called, whatever the call does. *)
Definition run_get_pattern_info (pat : pyval) : M (pyval * string) :=
  match pat with
  | PyFunc f =>
      fun s =>
        let pattern_name := p_name (producers f) in
        let '(pat', s') := p_call (producers f) s in
        Done (pat', if pattern_name =? "<lambda>" then "" else pattern_name) s'
  | _ => ret (pat, "")
  end.

(** *** Matchers that do not call back into [do_parse]

    The lists [match] and [rest] of these matchers are created by the call
    and joined into strings before it returns; they are kept as local
    values, with the loops of the matchers above.  The match that is
    returned is a new list of the store. *)

Definition run_match_text (text : string) (pat : string) (name : string)
  : M (pyval * string) :=
  if startswith text pat then
    let rest := drop (String.length pat) text in
    r <~ alloc (PyList [PyStr name; PyStr pat]) ;;
    ret (r, rest)
  else raise NoPatternFound.

(** [pattern.pattern == char] is false for an attribute that is not a
    string. *)
Definition run_match_some (text : string) (pat : pyval) (name : string)
  : M (pyval * string) :=
  attr <~ get_attr pat ;;
  let '(matched, rest) :=
    match attr with
    | PyStr c => some_loop c "" text
    | _ => ("", text)
    end in
  if matched =? "" then raise NoPatternFound
  else r <~ alloc (PyList [PyStr name; PyStr matched]) ;; ret (r, rest).

(** [char in letters] is modelled for a string of letters. *)
Definition run_match_words (text : string) (pat : pyval) (name : string)
  : M (pyval * string) :=
  attr <~ get_attr pat ;;
  match attr with
  | PyStr letters =>
      let '(matched, rest) := words_loop letters "" text in
      if matched =? "" then raise NoPatternFound
      else r <~ alloc (PyList [PyStr name; PyStr matched]) ;; ret (r, rest)
  | _ => if text =? "" then raise NoPatternFound else fault
  end.

(** [rest.startswith(pattern.pattern)] is modelled for a string. *)
Definition run_match_not (text : string) (pat : pyval) (name : string)
  : M (pyval * string) :=
  attr <~ get_attr pat ;;
  match attr with
  | PyStr forbidden =>
      let '(matched, rest) := not_loop forbidden "" text in
      if matched =? "" then raise NoPatternFound
      else r <~ alloc (PyList [PyStr name; PyStr matched]) ;; ret (r, rest)
  | _ => if text =? "" then raise NoPatternFound else fault
  end.

(** *** Matchers that call [do_parse] *)

Section RunMatchers.

Variable run_do_parse : string -> pyval -> M (pyval * string).

(** The [for] loop of [match_tuple]; [result] is the list it appends to. *)
Fixpoint run_tuple_loop (items : list pyval) (result : pyval) (rest : string)
  : M string :=
  match items with
  | [] => ret rest
  | sub_pattern :: items' =>
      '(m, rest) <~ run_do_parse rest sub_pattern ;;
      t <~ is_true m ;;
      _ <~ (if t then list_append result m else ret tt) ;;
      run_tuple_loop items' result rest
  end.

Definition run_match_tuple (text : string) (items : list pyval) (name : string)
  : M (pyval * string) :=
  result <~ alloc (PyList []) ;;
  rest <~ run_tuple_loop items result text ;;
  n <~ py_len result ;;
  result <~ (if Nat.eqb n 1 then py_getitem result 0 else ret result) ;;
  r0 <~ py_getitem result 0 ;;
  t <~ is_true r0 ;;
  result <~ (if negb t then py_getitem result 1 else ret result) ;;
  r <~ alloc (PyList [PyStr name; result]) ;;
  ret (r, rest).

Definition run_match_ignore (text : string) (pat : pyval) (name : string)
  : M (pyval * string) :=
  attr <~ get_attr pat ;;
  '(_, rest) <~ run_do_parse text attr ;;
  r <~ alloc (PyList []) ;;
  ret (r, rest).

(** The [for] loop of [match_one_of]. *)
Fixpoint run_one_of_loop (text : string) (options : list pyval) : M (pyval * string) :=
  match options with
  | [] => raise NoPatternFound
  | sub_pattern :: options' =>
      fun s =>
        match run_do_parse text sub_pattern s with
        | Raised NoPatternFound s' => run_one_of_loop text options' s'
        | Done (m, rest) s' =>
            (t <~ is_true m ;;
             if t then
               unwrap <~ (if negb t then ret true
                          else m0 <~ py_getitem m 0 ;; ret (py_eq_str m0 "<lambda>")) ;;
               if (unwrap : bool) then m1 <~ py_getitem m 1 ;; ret (m1, rest)
               else ret (m, rest)
             else run_one_of_loop text options') s'
        | r => r
        end
  end.

Definition run_match_one_of (text : string) (pat : pyval) (name : string)
  : M (pyval * string) :=
  options <~ get_attr pat ;;
  match options with
  | PyTuple items => run_one_of_loop text items
  | _ => fault
  end.

(** The test of [match_many] on a match it keeps. *)
Definition run_many_unlabel (m : pyval) : M pyval :=
  m0 <~ py_getitem m 0 ;;
  t <~ is_true m0 ;;
  if negb t || py_eq_str m0 "<lambda>" then py_getitem m 1 else ret m.

(** The [for] loop of [match_many]; [result] is the list it appends to,
    [rest] and [match_made] are its other variables. *)
Fixpoint run_many_for (options : list pyval) (result : pyval) (rest : string)
  (match_made : bool) : M (string * bool) :=
  match options with
  | [] => ret (rest, match_made)
  | sub_pattern :: options' =>
      fun s =>
        match run_do_parse rest sub_pattern s with
        | Raised NoPatternFound s' => run_many_for options' result rest match_made s'
        | Done (m, rest') s' =>
            (t <~ is_true m ;;
             if t then
               m <~ run_many_unlabel m ;;
               _ <~ list_append result m ;;
               run_many_for options' result rest' true
             else run_many_for options' result rest' match_made) s'
        | Raised e s' => Raised e s'
        | Fault => Fault
        | Diverged => Diverged
        end
  end.

(** The [while] loop of [match_many]; [pattern.options] is read at every
    pass. *)
Fixpoint run_many_while (fuel : nat) (pat : pyval) (result : pyval) (rest : string)
  : M string :=
  if rest =? "" then ret rest
  else
    match fuel with
    | 0 => fun _ => Diverged
    | S fuel' =>
        options <~ get_attr pat ;;
        match options with
        | PyTuple items =>
            '(rest', match_made) <~ run_many_for items result rest false ;;
            if negb match_made then ret rest'
            else run_many_while fuel' pat result rest'
        | _ => fault
        end
    end.

Definition run_match_many (fuel : nat) (text : string) (pat : pyval) (name : string)
  : M (pyval * string) :=
  result <~ alloc (PyList []) ;;
  rest <~ run_many_while fuel pat result text ;;
  t <~ is_true result ;;
  if negb t then raise NoPatternFound
  else
    n <~ py_len result ;;
    result <~ (if Nat.eqb n 1 then py_getitem result 0 else ret result) ;;
    if negb (name =? "") then
      r <~ alloc (PyList [PyStr name; result]) ;; ret (r, rest)
    else ret (result, rest).

Definition run_match_optional (text : string) (pat : pyval) (name : string)
  : M (pyval * string) :=
  attr <~ get_attr pat ;;
  try_except (run_do_parse text attr)
    (r <~ alloc (PyList []) ;; ret (r, text)).

(** The strings and the lists of lines of [match_indented] are local to
    the call; its loops are those of the matcher above. *)
Definition run_match_indented (text : string) (pat : pyval) (name : string)
  : M (pyval * string) :=
  if startswith text nl then
    let text := drop 1 text in
    let indent := indent_loop text "" in
    if indent =? "" then raise NoPatternFound
    else
      let lines := split_lines text in
      '(other_lines, indented_lines) <~ lift (indented_loop indent lines lines []) ;;
      let indented_text := nl ++ join nl indented_lines in
      let other_rest := join nl other_lines in
      attr <~ get_attr pat ;;
      '(indented_match, indented_rest) <~ run_do_parse indented_text attr ;;
      let rest := indented_rest ++ nl ++ other_rest in
      ret (indented_match, rest)
  else raise NoPatternFound.

End RunMatchers.

(** [do_parse] over the store: the type of the pattern is the kind of the
    value, and the class of the instance for a reference. *)
Fixpoint run_do_parse (fuel : nat) (text : string) (pat : pyval) : M (pyval * string) :=
  match fuel with
  | 0 => fun _ => Diverged
  | S fuel' =>
      '(pat, pattern_name) <~ run_get_pattern_info pat ;;
      match pat with
      | PyStr s => run_match_text text s pattern_name
      | PyTuple items => run_match_tuple (run_do_parse fuel') text items pattern_name
      | PyRef _ =>
          o <~ deref pat ;;
          match o with
          | PyInst cSome _ => run_match_some text pat pattern_name
          | PyInst cWords _ => run_match_words text pat pattern_name
          | PyInst cIgnore _ => run_match_ignore (run_do_parse fuel') text pat pattern_name
          | PyInst cOneOf _ => run_match_one_of (run_do_parse fuel') text pat pattern_name
          | PyInst cMany _ =>
              run_match_many (run_do_parse fuel') fuel' text pat pattern_name
          | PyInst cNot _ => run_match_not text pat pattern_name
          | PyInst cOptional _ =>
              run_match_optional (run_do_parse fuel') text pat pattern_name
          | PyInst cIndented _ =>
              run_match_indented (run_do_parse fuel') text pat pattern_name
          | PyList _ => raise UnknownMatcherType
          end
      | PyFunc _ | PyOther => raise UnknownMatcherType
      end
  end.

Definition run_parse_string (fuel : nat) (text : string) (pat : pyval) : M pyval :=
  '(m, _) <~ run_do_parse fuel text pat ;;
  ret m.

End RunEngine.

(** ** Patterns and matches in the store *)

(** [repr s v p]: in the store [s], the value [v] is the pattern [p]. *)
Inductive repr (s : store) : pyval -> pattern -> Prop :=
| repr_str str :
    repr s (PyStr str) (Str str)
| repr_tuple items ps :
    repr_all s items ps -> repr s (PyTuple items) (Tuple ps)
| repr_some a c :
    nth_error s a = Some (PyInst cSome (PyStr c)) -> repr s (PyRef a) (Some_ c)
| repr_words a letters :
    nth_error s a = Some (PyInst cWords (PyStr letters)) ->
    repr s (PyRef a) (Words letters)
| repr_ignore a v p :
    nth_error s a = Some (PyInst cIgnore v) -> repr s v p ->
    repr s (PyRef a) (Ignore p)
| repr_one_of a items ps :
    nth_error s a = Some (PyInst cOneOf (PyTuple items)) -> repr_all s items ps ->
    repr s (PyRef a) (OneOf ps)
| repr_many a items ps :
    nth_error s a = Some (PyInst cMany (PyTuple items)) -> repr_all s items ps ->
    repr s (PyRef a) (Many ps)
| repr_not a forbidden :
    nth_error s a = Some (PyInst cNot (PyStr forbidden)) ->
    repr s (PyRef a) (Not forbidden)
| repr_optional a v p :
    nth_error s a = Some (PyInst cOptional v) -> repr s v p ->
    repr s (PyRef a) (Optional p)
| repr_indented a v p :
    nth_error s a = Some (PyInst cIndented v) -> repr s v p ->
    repr s (PyRef a) (Indented p)
| repr_func f :
    repr s (PyFunc f) (Callable f)
| repr_other :
    repr s PyOther Other
with repr_all (s : store) : list pyval -> list pattern -> Prop :=
| repr_nil : repr_all s [] []
| repr_cons v p items ps :
    repr s v p -> repr_all s items ps -> repr_all s (v :: items) (p :: ps).

Scheme repr_mut := Minimality for repr Sort Prop
  with repr_all_mut := Minimality for repr_all Sort Prop.

(** [reads lo s r m]: in the store [s], the value [r] is the match [m], and
    every list of it is at an address that is [lo] or more. *)
Inductive reads (lo : nat) (s : store) : pyval -> value -> Prop :=
| reads_str str :
    reads lo s (PyStr str) (VStr str)
| reads_list a items xs :
    lo <= a -> nth_error s a = Some (PyList items) -> reads_all lo s items xs ->
    reads lo s (PyRef a) (VList xs)
with reads_all (lo : nat) (s : store) : list pyval -> list value -> Prop :=
| reads_nil : reads_all lo s [] []
| reads_cons r m items xs :
    reads lo s r m -> reads_all lo s items xs -> reads_all lo s (r :: items) (m :: xs).

Scheme reads_mut := Minimality for reads Sort Prop
  with reads_all_mut := Minimality for reads_all Sort Prop.

(** [same_value lo s o r]: the operation on a value of the store, run in
    [s], ends as the operation on the match does, and leaves the store as it
    is. *)
Definition same_value (lo : nat) (s : store) (o : outcome value) (r : run pyval)
  : Prop :=
  match o with
  | Ok x => exists v, r = Done v s /\ reads lo s v x
  | Raise e => r = Raised e s
  | Diverge => False
  end.

(** [ends_in lo s o r]: the run [r] over the store ends as the run [o] on
    patterns does; the store it ends in is [s] followed by new objects, and
    the match it returns is made of lists at the address [lo] or above. *)
Definition ends_in (lo : nat) (s : store) (o : outcome parsed)
  (r : run (pyval * string)) : Prop :=
  match o with
  | Ok (m, rest) =>
      exists v more,
        r = Done (v, rest) (s ++ more)%list /\ reads lo (s ++ more)%list v m
  | Raise e => exists more, r = Raised e (s ++ more)%list
  | Diverge => r = Diverged
  end.

(** [ends_alike s o r]: the run [r] over the store, started in [s], ends as
    the run [o] on patterns does; it has added objects to the store and
    changed none of those of [s], and the match it returns is made of the
    objects it has added. *)
Definition ends_alike (s : store) (o : outcome parsed) (r : run (pyval * string))
  : Prop :=
  ends_in (List.length s) s o r.

(** [results_alike s0 o r]: a loop that appends to the list of results ends
    as the loop on patterns does.  The list of results is the first object
    after those of [s0]; the store the loop ends in is [s0], that list, and
    new objects, and the items of the list are the matches of the loop on
    patterns. *)
Definition results_alike (s0 : store) (o : outcome (list value * string))
  (r : run string) : Prop :=
  match o with
  | Ok (result, rest) =>
      exists more items,
        r = Done rest (s0 ++ PyList items :: more)%list
        /\ reads_all (S (List.length s0)) (s0 ++ PyList items :: more)%list
             items result
  | Raise e => exists more items, r = Raised e (s0 ++ PyList items :: more)%list
  | Diverge => r = Diverged
  end.

(** The same for the [for] loop of [match_many], which also returns
    [match_made]. *)
Definition pass_alike (s0 : store) (o : outcome many_state)
  (r : run (string * bool)) : Prop :=
  match o with
  | Ok st =>
      exists more items,
        r = Done (st_rest st, st_match_made st) (s0 ++ PyList items :: more)%list
        /\ reads_all (S (List.length s0)) (s0 ++ PyList items :: more)%list
             items (st_result st)
  | Raise e => exists more items, r = Raised e (s0 ++ PyList items :: more)%list
  | Diverge => r = Diverged
  end.

(** [simulates parse run_parse]: on a value that is a pattern in the store,
    the run over the store ends as the run on the pattern does. *)
Definition simulates (parse : string -> pattern -> outcome parsed)
  (run_parse : string -> pyval -> M (pyval * string)) : Prop :=
  forall text v p s, repr s v p -> ends_alike s (parse text p) (run_parse text v s).

(** [returns_always producers bodies]: the functions are pure producers of
    patterns.  Whatever the store, a call of the function [f] adds objects
    to the store, changes none that were there, and returns a value that is
    the pattern [bodies f]. *)
Definition returns_always (producers : nat -> producer) (bodies : nat -> pattern)
  : Prop :=
  forall f s,
    exists v more,
      p_call (producers f) s = (v, (s ++ more)%list)
      /\ repr (s ++ more)%list v (bodies f).

(** The grammar of these functions, for the engine on patterns. *)
Definition grammar_of (producers : nat -> producer) (bodies : nat -> pattern)
  : nat -> func :=
  fun f => {| __name__ := p_name (producers f); call := bodies f |}.

(** A function with a side effect.  It owns the list at address 0 of the
    store: as long as that list is empty it appends an object to it and
    returns the literal "a"; once the list is not empty it returns the
    literal "b".  In Python: a function that appends to a global list and
    returns "a" or "b" according to its length. *)
Definition fickle_rule : nat -> producer :=
  fun _ =>
    {| p_name := "rule";
       p_call := fun s =>
         match s with
         | PyList [] :: s' => (PyStr "a", PyList [PyOther] :: s')
         | _ => (PyStr "b", s)
         end |}.

(** A pure function: every call builds a new instance [Some("b")]. *)
Definition some_b_rule : nat -> producer :=
  fun _ =>
    {| p_name := "bs";
       p_call := fun s =>
         (PyRef (List.length s), (s ++ [PyInst cSome (PyStr "b")])%list) |}.

(** * Properties *)

(** ** Strings *)

Lemma append_nil_r (s : string) : s ++ "" = s.
Proof. induction s as [|c s IH]; simpl; [reflexivity | now rewrite IH]. Qed.

Lemma append_assoc (a b c : string) : (a ++ b) ++ c = a ++ (b ++ c).
Proof. induction a as [|x a IH]; simpl; [reflexivity | now rewrite IH]. Qed.

Lemma startswith_nil (s : string) : startswith s "" = true.
Proof. destruct s; reflexivity. Qed.

Lemma startswith_cons (c d : ascii) (s p : string) :
  startswith (String c s) (String d p) = Ascii.eqb d c && startswith s p.
Proof.
  unfold startswith; simpl.
  destruct (ascii_dec d c) as [->|N].
  - now rewrite Ascii.eqb_refl.
  - apply Ascii.eqb_neq in N. now rewrite N.
Qed.

(** ** Outcomes *)

Lemma bind_Ok_inv {A B} (m : outcome A) (k : A -> outcome B) (b : B) :
  bind m k = Ok b -> exists a, m = Ok a /\ k a = Ok b.
Proof. destruct m; simpl; intros H; try discriminate. eauto. Qed.

Lemma bind_not_Diverge {A B} (m : outcome A) (k : A -> outcome B) :
  bind m k <> Diverge -> m <> Diverge.
Proof. destruct m; simpl; congruence. Qed.

(** ** Optional *)

(** C6.  If the inner pattern matches, [Optional] returns its match and rest
    unchanged; if it raises [NoPatternFound], [Optional] returns the empty
    match and the text it was given; [Optional] never raises
    [NoPatternFound]; parsing "x" with [Optional "y"] gives the empty match
    and leaves "x". *)
Theorem match_optional_passes_or_empty (funcs : nat -> func) (fuel : nat)
  (text : string) (p : pattern) :
  (forall r, do_parse funcs fuel text p = Ok r ->
             do_parse funcs (S fuel) text (Optional p) = Ok r)
  /\ (do_parse funcs fuel text p = Raise NoPatternFound ->
      do_parse funcs (S fuel) text (Optional p) = Ok (VList [], text))
  /\ do_parse funcs fuel text (Optional p) <> Raise NoPatternFound
  /\ do_parse funcs (S (S fuel)) "x" (Optional (Str "y")) = Ok (VList [], "x")
  /\ parse_string funcs (S (S fuel)) "x" (Optional (Str "y")) = Ok (VList []).
Proof.
  repeat split.
  - intros r H. simpl. unfold match_optional. now rewrite H.
  - intros H. simpl. unfold match_optional. now rewrite H.
  - destruct fuel as [|n]; simpl; [discriminate|].
    unfold match_optional.
    destruct (do_parse funcs n text p) as [r|e|]; try discriminate.
    destruct e; discriminate.
Qed.

Lemma match_optional_passes_or_empty_witness :
  do_parse no_rules 2 "yz" (Optional (Str "y")) = Ok (VList [VStr ""; VStr "y"], "z")
  /\ do_parse no_rules 2 "x" (Optional (Str "y")) = Ok (VList [], "x").
Proof.
  destruct (match_optional_passes_or_empty no_rules 1 "yz" (Str "y")) as [H1 _].
  destruct (match_optional_passes_or_empty no_rules 1 "x" (Str "y")) as [_ [H2 _]].
  split; [apply H1 | apply H2]; reflexivity.
Defined.

(** ** Not *)

(** The loop of [match_not] appends to [matched] a part [consumed] of the
    text: what is left is empty or starts with the forbidden string, and the
    forbidden string starts nowhere in the consumed part. *)
Lemma not_loop_spec (pat : string) (rest matched : string) :
  exists consumed rest',
    not_loop pat matched rest = (matched ++ consumed, rest')
    /\ rest = consumed ++ rest'
    /\ (rest' = "" \/ startswith rest' pat = true)
    /\ (forall k, k < String.length consumed -> startswith (drop k rest) pat = false).
Proof.
  revert matched. induction rest as [|c rest IH]; intros matched.
  - exists "", "". simpl. rewrite append_nil_r. repeat split; auto.
    intros k Hk; inversion Hk.
  - cbn [not_loop]. destruct (startswith (String c rest) pat) eqn:E.
    + exists "", (String c rest). rewrite append_nil_r. repeat split; auto.
      intros k Hk; inversion Hk.
    + destruct (IH (matched ++ String c "")) as (consumed & rest' & H1 & H2 & H3 & H4).
      exists (String c consumed), rest'. repeat split.
      * rewrite H1, append_assoc. reflexivity.
      * simpl. now rewrite <- H2.
      * exact H3.
      * intros [|k] Hk; [exact E|]. simpl in *. apply H4. lia.
Qed.

(** C7.  [Not] takes characters from the front of the text until the text is
    exhausted or what is left starts with the forbidden string; the
    forbidden string starts nowhere in the consumed run; the match is the
    consumed run, and an empty run raises [NoPatternFound].  [Not "STOP"]
    takes "abc" from "abcSTOPdef" and fails on "STOPxyz". *)
Theorem match_not_consumes_until_forbidden (funcs : nat -> func) (fuel : nat)
  (text pat : string) :
  (exists consumed rest,
      text = consumed ++ rest
      /\ (rest = "" \/ startswith rest pat = true)
      /\ (forall k, k < String.length consumed -> startswith (drop k text) pat = false)
      /\ do_parse funcs (S fuel) text (Not pat) =
           if consumed =? "" then Raise NoPatternFound
           else Ok (VList [VStr ""; VStr consumed], rest))
  /\ do_parse funcs (S fuel) "abcSTOPdef" (Not "STOP")
       = Ok (VList [VStr ""; VStr "abc"], "STOPdef")
  /\ do_parse funcs (S fuel) "STOPxyz" (Not "STOP") = Raise NoPatternFound.
Proof.
  split; [|split; reflexivity].
  destruct (not_loop_spec pat text "") as (consumed & rest & H1 & H2 & H3 & H4).
  exists consumed, rest. repeat split; auto.
  simpl. unfold match_not. rewrite H1. reflexivity.
Qed.

(** C10.  With an empty forbidden string [Not] raises [NoPatternFound] on
    every text: every text starts with the empty string, so nothing is
    consumed. *)
Theorem match_not_empty_pattern_fails (funcs : nat -> func) (fuel : nat)
  (text name : string) :
  match_not text "" name = Raise NoPatternFound
  /\ do_parse funcs (S fuel) text (Not "") = Raise NoPatternFound.
Proof.
  assert (H : forall n, match_not text "" n = Raise NoPatternFound).
  { intros n. unfold match_not. destruct text as [|c text]; simpl; reflexivity. }
  split; [apply H | simpl; apply H].
Qed.

(** ** Tuple *)

(** C9.  The claim that the index accesses of [match_tuple] are always
    within bounds fails on the code: when no sub-pattern leaves a non-empty
    match, [result] is the empty list and [result[0]] raises [IndexError].
    This is so for the empty tuple on every text, and for a tuple whose only
    sub-pattern is an [Ignore]. *)
Theorem match_tuple_empty_result_IndexError (funcs : nat -> func) (fuel : nat)
  (text : string) :
  do_parse funcs (S fuel) text (Tuple []) = Raise IndexError
  /\ do_parse funcs (S (S (S fuel))) "a" (Tuple [Ignore (Str "a")]) = Raise IndexError
  /\ parse_string funcs (S (S (S fuel))) "a" (Tuple [Ignore (Str "a")]) = Raise IndexError.
Proof. repeat split. Qed.

(** The [for] loop of [match_tuple] on a single sub-pattern. *)
Lemma tuple_loop_single (parse : string -> pattern -> outcome parsed)
  (p : pattern) (text : string) (m : value) (rest : string) :
  parse text p = Ok (m, rest) -> truthy m = true ->
  tuple_loop parse [p] [] text = Ok ([m], rest).
Proof. intros H T. simpl. rewrite H. simpl. now rewrite T. Qed.

(** [match_tuple] always ends with [result = [name, result]]. *)
Lemma match_tuple_Ok_shape (parse : string -> pattern -> outcome parsed)
  (text : string) (ps : list pattern) (name : string) (m : value) (rest : string) :
  match_tuple parse text ps name = Ok (m, rest) ->
  exists v, m = VList [VStr name; v].
Proof.
  unfold match_tuple. intros H.
  apply bind_Ok_inv in H. destruct H as ([res r] & _ & H).
  apply bind_Ok_inv in H. destruct H as (v1 & _ & H).
  apply bind_Ok_inv in H. destruct H as (v2 & _ & H).
  apply bind_Ok_inv in H. destruct H as (v3 & _ & H).
  injection H as <- _. eauto.
Qed.

(** C3, as the code has it.  An anonymous tuple returns the assembled value
    [v] inside the pair [["", v]], the label being the empty string.  So for
    a tuple of exactly one sub-pattern whose own match is such a pair
    [["", v]], the tuple's match is identical to the sub-pattern's. *)
Theorem match_tuple_anonymous_pair (funcs : nat -> func) (fuel : nat) (text : string) :
  (forall ps m rest,
      do_parse funcs (S fuel) text (Tuple ps) = Ok (m, rest) ->
      exists v, m = VList [VStr ""; v])
  /\ (forall p v rest,
      do_parse funcs fuel text p = Ok (VList [VStr ""; v], rest) ->
      do_parse funcs (S fuel) text (Tuple [p]) = Ok (VList [VStr ""; v], rest)).
Proof.
  split.
  - intros ps m rest H. simpl in H. eapply match_tuple_Ok_shape; eauto.
  - intros p v rest H. simpl. unfold match_tuple.
    rewrite (tuple_loop_single _ _ _ _ _ H eq_refl). reflexivity.
Qed.

Lemma match_tuple_anonymous_pair_witness :
  (exists v, VList [VStr ""; VList [VStr "a"; VStr "b"]] = VList [VStr ""; v])
  /\ do_parse no_rules 2 "ab" (Tuple [Str "a"]) = Ok (VList [VStr ""; VStr "a"], "b").
Proof.
  destruct (match_tuple_anonymous_pair no_rules 3 "ab") as [H1 _].
  destruct (match_tuple_anonymous_pair no_rules 1 "ab") as [_ H2].
  split.
  - apply (H1 [Many [Str "a"; Str "b"]] _ ""). reflexivity.
  - apply H2. reflexivity.
Defined.

(** C3, as stated, fails: the anonymous tuple of the single anonymous
    sub-pattern [Many("a", "b")] returns [["", ["a", "b"]]] on "ab", where
    the sub-pattern itself returns the bare list [["a", "b"]]; and the tuple
    of the single sub-pattern [Ignore("a")] returns nothing on "a", where
    the sub-pattern returns the empty match. *)
Lemma match_tuple_bare_counterexample :
  do_parse no_rules 2 "ab" (Many [Str "a"; Str "b"])
    = Ok (VList [VStr "a"; VStr "b"], "")
  /\ do_parse no_rules 3 "ab" (Tuple [Many [Str "a"; Str "b"]])
    = Ok (VList [VStr ""; VList [VStr "a"; VStr "b"]], "")
  /\ parse_string no_rules 3 "ab" (Tuple [Many [Str "a"; Str "b"]])
    <> parse_string no_rules 2 "ab" (Many [Str "a"; Str "b"])
  /\ parse_string no_rules 2 "a" (Ignore (Str "a")) = Ok (VList [])
  /\ parse_string no_rules 3 "a" (Tuple [Ignore (Str "a")]) = Raise IndexError.
Proof. repeat split. discriminate. Qed.

(** ** Many *)

(** While text is left, a pass over the single option [""] accepts an empty
    string and leaves the text as it is. *)
Lemma many_while_empty_literal (funcs : nat -> func) (n fuel : nat)
  (c : ascii) (text : string) (result : list value) :
  many_while (do_parse funcs n) fuel [Str ""] result (String c text) = Diverge.
Proof.
  revert result. induction fuel as [|fuel IH]; intros result.
  - reflexivity.
  - destruct n as [|n].
    + reflexivity.
    + cbn -[do_parse]. cbn. apply IH.
Qed.

(** C5.  The claim that the loop of [match_many] makes finitely many passes
    for every option list fails on the code: with the empty literal as only
    option and a non-empty text, every pass accepts the empty string and
    leaves the text unchanged, so that no amount of fuel is enough. *)
Theorem match_many_empty_literal_diverges (funcs : nat -> func) (fuel : nat)
  (c : ascii) (text : string) :
  do_parse funcs fuel (String c text) (Many [Str ""]) = Diverge
  /\ parse_string funcs fuel "x" (Many [Str ""]) = Diverge.
Proof.
  assert (H : forall c text, do_parse funcs fuel (String c text) (Many [Str ""]) = Diverge).
  { intros c' text'. destruct fuel as [|fuel]; [reflexivity|].
    simpl. unfold match_many. now rewrite many_while_empty_literal. }
  split; [apply H|]. unfold parse_string. now rewrite H.
Qed.

(** ** OneOf *)

Lemma getitem_Raise (v : value) (i : nat) (e : exn) :
  getitem v i = Raise e -> e = IndexError.
Proof.
  destruct v as [s|l]; simpl.
  - destruct (String.get i s); congruence.
  - destruct (nth_error l i); congruence.
Qed.

Lemma match_one_of_passed_over (parse : string -> pattern -> outcome parsed)
  (text : string) (q : pattern) (options : list pattern) (name : string) :
  passed_over parse text q ->
  match_one_of parse text (q :: options) name = match_one_of parse text options name.
Proof.
  intros [H | (m & rest & H & T)]; simpl; rewrite H; [reflexivity|].
  now rewrite T.
Qed.

Lemma match_one_of_skips_prefix (parse : string -> pattern -> outcome parsed)
  (text : string) (pre options : list pattern) (name : string) :
  Forall (passed_over parse text) pre ->
  match_one_of parse text (pre ++ options) name = match_one_of parse text options name.
Proof.
  induction 1 as [|q pre Hq _ IH]; simpl app; [reflexivity|].
  now rewrite match_one_of_passed_over.
Qed.

Lemma match_one_of_NoPatternFound (parse : string -> pattern -> outcome parsed)
  (text : string) (options : list pattern) (name : string) :
  match_one_of parse text options name = Raise NoPatternFound
  <-> Forall (passed_over parse text) options.
Proof.
  split.
  - induction options as [|q options IH]; intros H; [constructor|].
    simpl in H. destruct (parse text q) as [[m rest]|e|] eqn:E; try discriminate.
    + destruct (truthy m) eqn:T.
      * exfalso. simpl in H.
        destruct (getitem m 0) as [m0|e|] eqn:E0; simpl in H; try discriminate.
        -- destruct (eq_str m0 "<lambda>"); try discriminate.
           destruct (getitem m 1) as [m1|e|] eqn:E1; simpl in H; try discriminate.
           apply getitem_Raise in E1. congruence.
        -- apply getitem_Raise in E0. congruence.
      * constructor; [right; eauto | auto].
    + destruct e; try discriminate. constructor; [now left | auto].
  - intros H. rewrite <- (app_nil_r options).
    now rewrite match_one_of_skips_prefix.
Qed.

(** C2, as the code has it.  [OneOf] returns the match and rest of the first
    option, in list order, that succeeds with a non-empty match (stated here
    for a match whose first component is not the string "<lambda>"); an
    option that succeeds with an empty match is passed over like one that
    fails; [NoPatternFound] is raised exactly when every option fails or
    returns an empty match; and ["a", "ab"] against "ab" consumes "a" only. *)
Theorem match_one_of_first_nonempty (funcs : nat -> func) (fuel : nat) (text : string) :
  (forall pre p post m m0 rest,
      Forall (passed_over (do_parse funcs fuel) text) pre ->
      do_parse funcs fuel text p = Ok (m, rest) ->
      truthy m = true ->
      getitem m 0 = Ok m0 -> eq_str m0 "<lambda>" = false ->
      do_parse funcs (S fuel) text (OneOf (pre ++ p :: post)) = Ok (m, rest))
  /\ (forall options,
      do_parse funcs (S fuel) text (OneOf options) = Raise NoPatternFound
      <-> Forall (passed_over (do_parse funcs fuel) text) options)
  /\ do_parse funcs (S (S fuel)) "ab" (OneOf [Str "a"; Str "ab"])
       = Ok (VList [VStr ""; VStr "a"], "b").
Proof.
  split; [|split].
  - intros pre p post m m0 rest Hpre Hp T H0 HL.
    simpl. rewrite match_one_of_skips_prefix by exact Hpre.
    simpl. rewrite Hp, T. simpl. rewrite H0. simpl. now rewrite HL.
  - intros options. simpl. apply match_one_of_NoPatternFound.
  - reflexivity.
Qed.

Lemma match_one_of_first_nonempty_witness :
  do_parse no_rules 3 "ab" (OneOf ([Ignore (Str "a"); Str "b"] ++ Str "ab" :: [Str "a"]))
    = Ok (VList [VStr ""; VStr "ab"], "")
  /\ do_parse no_rules 3 "a" (OneOf [Ignore (Str "a"); Str "b"]) = Raise NoPatternFound.
Proof.
  destruct (match_one_of_first_nonempty no_rules 2 "ab") as [H1 _].
  destruct (match_one_of_first_nonempty no_rules 2 "a") as [_ [H2 _]].
  split.
  - apply (H1 [Ignore (Str "a"); Str "b"] (Str "ab") [Str "a"] _ (VStr "")).
    + apply Forall_cons; [|apply Forall_cons; [|apply Forall_nil]].
      * right. exists (VList []), "b". split; reflexivity.
      * left. reflexivity.
    + reflexivity.
    + reflexivity.
    + reflexivity.
    + reflexivity.
  - apply H2. apply Forall_cons; [|apply Forall_cons; [|apply Forall_nil]].
    + right. exists (VList []), "". split; reflexivity.
    + left. reflexivity.
Defined.

(** C2, as stated, fails: against "ab" the first option of
    [OneOf(Ignore("a"), "ab")] succeeds, with the empty match and the rest
    "b", and yet [OneOf] returns the match of the second option; and
    [OneOf(Ignore("a"))] raises [NoPatternFound] against "a" although its
    option succeeds. *)
Lemma match_one_of_empty_counterexample :
  do_parse no_rules 2 "ab" (Ignore (Str "a")) = Ok (VList [], "b")
  /\ do_parse no_rules 3 "ab" (OneOf [Ignore (Str "a"); Str "ab"])
     = Ok (VList [VStr ""; VStr "ab"], "")
  /\ do_parse no_rules 3 "ab" (OneOf [Ignore (Str "a"); Str "ab"])
     <> do_parse no_rules 2 "ab" (Ignore (Str "a"))
  /\ do_parse no_rules 2 "a" (Ignore (Str "a")) = Ok (VList [], "")
  /\ do_parse no_rules 3 "a" (OneOf [Ignore (Str "a")]) = Raise NoPatternFound.
Proof. repeat split. discriminate. Qed.

(** ** Indented *)

(** The first loop of [match_indented] measures the run of spaces the text
    starts with. *)
Lemma indent_loop_spec (text indent : string) :
  exists spaces tail,
    indent_loop text indent = indent ++ spaces
    /\ text = spaces ++ tail
    /\ all_spaces spaces = true
    /\ startswith tail " " = false.
Proof.
  revert indent. induction text as [|c text IH]; intros indent.
  - exists "", "". simpl. now rewrite append_nil_r.
  - simpl. destruct (Ascii.eqb c space) eqn:E.
    + destruct (IH (indent ++ String c "")) as (sp & tail & H1 & H2 & H3 & H4).
      exists (String c sp), tail. repeat split; auto.
      * rewrite H1, append_assoc. reflexivity.
      * simpl. now rewrite H2.
      * simpl. now rewrite E, H3.
    + exists "", (String c text). rewrite append_nil_r. repeat split; auto.
      unfold space in E. rewrite startswith_cons, Ascii.eqb_sym, E. reflexivity.
Qed.

(** The second loop of [match_indented] takes the longest run of leading
    lines that start with [indent]; [other_lines] keeps the lines from the
    first one that does not, and never runs out before [lines] does. *)
Lemma indented_loop_spec (indent : string) (lines indented_lines : list string) :
  exists block others,
    lines = (block ++ others)%list
    /\ Forall (fun line => startswith line indent = true) block
    /\ (others = [] \/ exists line ls, others = line :: ls /\ startswith line indent = false)
    /\ indented_loop indent lines lines indented_lines
       = Ok (others, (indented_lines ++ map (drop (String.length indent)) block)%list).
Proof.
  revert indented_lines. induction lines as [|line lines IH]; intros acc.
  - exists [], []. simpl. rewrite app_nil_r. repeat split; auto.
  - simpl. destruct (startswith line indent) eqn:E.
    + destruct (IH (acc ++ [drop (String.length indent) line])%list)
        as (block & others & H1 & H2 & H3 & H4).
      exists (line :: block), others. repeat split; auto.
      * simpl. now rewrite <- H1.
      * rewrite H4. simpl. now rewrite <- app_assoc.
    + exists [], (line :: lines). simpl. rewrite app_nil_r. repeat split; auto.
      right. eauto.
Qed.

Lemma startswith_nl_space (text : string) :
  startswith text (nl ++ " ") = true <->
  exists rest, text = nl ++ String space rest.
Proof.
  unfold startswith. split.
  - intros H. apply prefix_correct in H.
    destruct text as [|c [|d rest]]; simpl in H; try discriminate.
    injection H as -> ->. now exists rest.
  - intros [rest ->]. fold (startswith (nl ++ String space rest) (nl ++ " ")).
    unfold nl. cbn [append]. now rewrite !startswith_cons, startswith_nil.
Qed.

(** C4.  [Indented] raises [NoPatternFound] unless the text begins with a
    newline followed by a space.  Otherwise, with [indent] the run of spaces
    after the newline, [block] the longest run of leading lines that start
    with [indent] and [others] the remaining lines, the inner pattern is
    matched against a newline followed by the lines of [block] without their
    indentation, joined by newlines; its failure is the failure of
    [Indented], and on success the rest is the inner rest, a newline, and
    [others] joined by newlines as they were.  On "\n  foo\n  bar\nbaz", an
    inner pattern that consumes the whole of "\nfoo\nbar" leaves "\nbaz". *)
Theorem match_indented_dedents_block (funcs : nat -> func) (fuel : nat)
  (text : string) (p : pattern) :
  (startswith text (nl ++ " ") = false ->
   do_parse funcs (S fuel) text (Indented p) = Raise NoPatternFound)
  /\ (startswith text (nl ++ " ") = true ->
      exists indent tail block others,
        text = nl ++ indent ++ tail
        /\ indent <> "" /\ all_spaces indent = true /\ startswith tail " " = false
        /\ split_lines (indent ++ tail) = (block ++ others)%list
        /\ Forall (fun line => startswith line indent = true) block
        /\ (others = [] \/
            exists line ls, others = line :: ls /\ startswith line indent = false)
        /\ do_parse funcs (S fuel) text (Indented p) =
             ('(m, indented_rest) <-
                do_parse funcs fuel
                  (nl ++ join nl (map (drop (String.length indent)) block)) p ;;
              Ok (m, indented_rest ++ nl ++ join nl others)))
  /\ (forall m,
      do_parse funcs fuel (nl ++ "foo" ++ nl ++ "bar") p = Ok (m, "") ->
      do_parse funcs (S fuel) (nl ++ "  foo" ++ nl ++ "  bar" ++ nl ++ "baz") (Indented p)
        = Ok (m, nl ++ "baz")).
Proof.
  split; [|split].
  - intros H. simpl. unfold match_indented.
    destruct (startswith text nl) eqn:E; [|reflexivity].
    destruct text as [|c text]; [discriminate|].
    unfold nl in E. rewrite startswith_cons, startswith_nil, andb_true_r in E.
    apply Ascii.eqb_eq in E. subst c.
    cbn [drop].
    destruct text as [|d text]; [reflexivity|].
    unfold nl in H. cbn [append] in H.
    rewrite !startswith_cons, startswith_nil, Ascii.eqb_refl, andb_true_r in H.
    cbn [andb] in H. rewrite Ascii.eqb_sym in H.
    cbv zeta. cbn [indent_loop]. fold space in H. rewrite H. reflexivity.
  - intros H. apply startswith_nl_space in H. destruct H as [rest ->].
    destruct (indent_loop_spec (String space rest) "") as (indent & tail & H1 & H2 & H3 & H4).
    simpl append in H1.
    destruct (indented_loop_spec indent (split_lines (String space rest)) [])
      as (block & others & H5 & H6 & H7 & H8).
    exists indent, tail, block, others.
    assert (Hne : indent <> "").
    { intros ->. simpl in H2. subst tail. unfold space in H4.
      rewrite startswith_cons, startswith_nil, Ascii.eqb_refl in H4. discriminate. }
    repeat split; auto.
    + simpl. now rewrite H2.
    + now rewrite <- H2.
    + simpl. unfold match_indented.
      change (startswith (String "010"%char (String space rest)) nl) with true.
      cbn [drop]. cbv zeta. rewrite H1.
      destruct (indent =? "") eqn:E; [apply String.eqb_eq in E; contradiction|].
      rewrite H8. reflexivity.
  - intros m H. simpl. unfold match_indented. simpl. simpl in H. rewrite H. reflexivity.
Qed.

Lemma match_indented_dedents_block_witness :
  do_parse no_rules 2 "  foo" (Indented (Str "foo")) = Raise NoPatternFound
  /\ do_parse no_rules 2 (nl ++ "  foo" ++ nl ++ "  bar" ++ nl ++ "baz")
       (Indented (Str (nl ++ "foo" ++ nl ++ "bar")))
     = Ok (VList [VStr ""; VStr (nl ++ "foo" ++ nl ++ "bar")], nl ++ "baz").
Proof.
  destruct (match_indented_dedents_block no_rules 1 "  foo" (Str "foo")) as [H1 _].
  destruct (match_indented_dedents_block no_rules 1 "" (Str (nl ++ "foo" ++ nl ++ "bar")))
    as [_ [_ H3]].
  split; [apply H1 | apply H3]; reflexivity.
Defined.

(** ** Many, pass by pass *)

Section ManyPasses.

Variable parse : string -> pattern -> outcome parsed.

(** [many_unlabel] drops the empty label of an anonymous match and keeps a
    named match whole. *)
Lemma many_unlabel_labels (name : string) (v : value) :
  many_unlabel (VList [VStr ""; v]) = Ok v
  /\ (name <> "" -> name <> "<lambda>" ->
      many_unlabel (VList [VStr name; v]) = Ok (VList [VStr name; v])).
Proof.
  split; [reflexivity|]. intros H1 H2. unfold many_unlabel. simpl.
  apply String.eqb_neq in H1, H2. now rewrite H1, H2.
Qed.

(** A run of the [for] loop is a pass: what it appends to [result] is what
    the pass accepts, and [match_made] is set when something is accepted. *)
Lemma many_for_is_pass (options : list pattern) (st st' : many_state) :
  many_for parse options st = Ok st' ->
  exists accepted,
    pass parse options (st_rest st) accepted (st_rest st')
    /\ st_result st' = (st_result st ++ accepted)%list
    /\ st_match_made st' =
         st_match_made st || match accepted with [] => false | _ => true end.
Proof.
  revert st. induction options as [|p options IH]; intros st H.
  - injection H as <-. exists []. rewrite app_nil_r, orb_false_r.
    repeat split. constructor.
  - simpl in H. destruct (parse (st_rest st) p) as [[m rest1]|e|] eqn:E.
    + destruct (truthy m) eqn:T.
      * apply bind_Ok_inv in H. destruct H as (v & Hv & H).
        apply IH in H. destruct H as (acc & P & R & M). simpl in *.
        exists (v :: acc). repeat split.
        -- eapply pass_accept; eauto.
        -- rewrite R, <- app_assoc. reflexivity.
        -- rewrite M. now rewrite orb_true_r.
      * apply IH in H. destruct H as (acc & P & R & M). simpl in *.
        exists acc. repeat split; auto. eapply pass_empty; eauto.
    + destruct e; try discriminate.
      apply IH in H. destruct H as (acc & P & R & M).
      exists acc. repeat split; auto. now apply pass_skip.
    + discriminate.
Qed.

(** Conversely, the [for] loop runs every pass. *)
Lemma pass_is_many_for (options : list pattern) (rest rest' : string)
  (accepted : list value) :
  pass parse options rest accepted rest' ->
  forall result made,
    many_for parse options
      {| st_result := result; st_rest := rest; st_match_made := made |}
    = Ok {| st_result := (result ++ accepted)%list; st_rest := rest';
            st_match_made := made || match accepted with [] => false | _ => true end |}.
Proof.
  induction 1 as [rest | p options rest acc rest' E _ IH
                 | p options rest m rest1 acc rest' E T _ IH
                 | p options rest m rest1 v acc rest' E T U _ IH];
    intros result made; simpl.
  - now rewrite app_nil_r, orb_false_r.
  - rewrite E. apply IH.
  - rewrite E, T. apply IH.
  - rewrite E, T, U. simpl. rewrite IH, <- app_assoc, orb_true_r. reflexivity.
Qed.

(** A run of the [while] loop is a sequence of passes. *)
Lemma many_while_is_passes (fuel : nat) (options : list pattern)
  (result result' : list value) (rest rest' : string) :
  many_while parse fuel options result rest = Ok (result', rest') ->
  exists accepted,
    passes parse options rest accepted rest' /\ result' = (result ++ accepted)%list.
Proof.
  revert result rest. induction fuel as [|fuel IH]; intros result rest H.
  - simpl in H. destruct (rest =? "") eqn:E; [|discriminate].
    apply String.eqb_eq in E. subst rest. injection H as <- <-.
    exists []. rewrite app_nil_r. split; [constructor | reflexivity].
  - simpl in H. destruct (rest =? "") eqn:E.
    + apply String.eqb_eq in E. subst rest. injection H as <- <-.
      exists []. rewrite app_nil_r. split; [constructor | reflexivity].
    + apply String.eqb_neq in E.
      apply bind_Ok_inv in H. destruct H as (st & Hfor & H).
      apply many_for_is_pass in Hfor. destruct Hfor as (acc & P & R & M).
      simpl in P, R, M. rewrite M in H.
      destruct acc as [|v acc]; simpl in H.
      * injection H as <- <-. exists []. split; [now apply passes_stop | exact R].
      * apply IH in H. destruct H as (acc' & P' & R').
        exists ((v :: acc) ++ acc')%list. split.
        -- eapply passes_again; eauto. discriminate.
        -- rewrite R', R, <- app_assoc. reflexivity.
Qed.

(** Conversely, with enough fuel the [while] loop runs every sequence of
    passes. *)
Lemma passes_is_many_while (options : list pattern) (rest rest' : string)
  (accepted : list value) :
  passes parse options rest accepted rest' ->
  exists fuel, forall result,
    many_while parse fuel options result rest = Ok ((result ++ accepted)%list, rest').
Proof.
  induction 1 as [| rest rest' N P | rest acc rest1 accs rest' N P A _ [fuel IH]].
  - exists 0. intros result. simpl. now rewrite app_nil_r.
  - exists 1. intros result. simpl.
    apply String.eqb_neq in N. rewrite N.
    rewrite (pass_is_many_for _ _ _ _ P). simpl. now rewrite app_nil_r.
  - exists (S fuel). intros result. simpl.
    apply String.eqb_neq in N. rewrite N.
    rewrite (pass_is_many_for _ _ _ _ P). simpl.
    destruct acc as [|v acc]; [contradiction|]. simpl.
    rewrite IH, <- app_assoc. reflexivity.
Qed.

(** What [match_many] does with the outcome of its [while] loop. *)
Lemma match_many_after_loop (fuel : nat) (text : string) (options : list pattern)
  (name : string) (result : list value) (rest : string) :
  many_while parse fuel options [] text = Ok (result, rest) ->
  match_many parse fuel text options name =
    match result with
    | [] => Raise NoPatternFound
    | _ :: _ => Ok (many_value name result, rest)
    end.
Proof.
  intros H. unfold match_many. rewrite H. simpl.
  destruct result as [|x [|y result]]; [reflexivity| |];
    unfold many_value; simpl; destruct (name =? ""); reflexivity.
Qed.

(** [NoPatternFound] is caught by the [for] loop, so that neither loop
    raises it. *)
Lemma many_unlabel_Raise (m : value) (e : exn) :
  many_unlabel m = Raise e -> e = IndexError.
Proof.
  unfold many_unlabel.
  destruct (getitem m 0) as [m0|e0|] eqn:G0; simpl; try discriminate.
  - destruct (negb (truthy m0) || eq_str m0 "<lambda>"); try discriminate.
    apply getitem_Raise.
  - intros H. injection H as <-. now apply getitem_Raise in G0.
Qed.

Lemma many_for_Raise (options : list pattern) (st : many_state) (e : exn) :
  many_for parse options st = Raise e -> e <> NoPatternFound.
Proof.
  revert st. induction options as [|p options IH]; intros st H; simpl in H;
    [discriminate|].
  destruct (parse (st_rest st) p) as [[m rest1]|e0|]; try discriminate.
  - destruct (truthy m); [|eauto].
    destruct (many_unlabel m) as [v|e1|] eqn:U; simpl in H; try discriminate; [eauto|].
    injection H as <-. apply many_unlabel_Raise in U. subst e1. discriminate.
  - destruct e0; try (injection H as <-; discriminate). eauto.
Qed.

Lemma many_while_Raise (fuel : nat) (options : list pattern) (result : list value)
  (rest : string) (e : exn) :
  many_while parse fuel options result rest = Raise e -> e <> NoPatternFound.
Proof.
  revert result rest. induction fuel as [|fuel IH]; intros result rest H; simpl in H;
    destruct (rest =? ""); try discriminate.
  destruct (many_for parse options
              {| st_result := result; st_rest := rest; st_match_made := false |})
    as [st|e0|] eqn:F; simpl in H; try discriminate.
  - destruct (st_match_made st); simpl in H; [eauto | discriminate].
  - injection H as <-. eapply many_for_Raise; eauto.
Qed.

End ManyPasses.

(** C1, as the code has it.  While text is left, [Many] makes passes over
    its options: a pass tries every option once, in list order, each at the
    position left by the successful options before it in the same pass, and
    appends the unlabelled match of every option that returns a non-empty
    one; the scan goes back to the first option only when a pass is over.
    An option that fails is skipped, and one that returns an empty match
    moves the position without being accepted.  The repetition stops when
    the text is exhausted or after the first pass that accepts nothing, and
    no accepted match at all raises [NoPatternFound]. *)
Theorem match_many_in_passes (funcs : nat -> func) (n : nat) (text : string)
  (options : list pattern) (name : string) :
  (forall m rest,
      (exists fuel, match_many (do_parse funcs n) fuel text options name = Ok (m, rest))
      <-> (exists result,
              passes (do_parse funcs n) options text result rest
              /\ result <> [] /\ m = many_value name result))
  /\ ((exists fuel,
          match_many (do_parse funcs n) fuel text options name = Raise NoPatternFound)
      <-> (exists rest, passes (do_parse funcs n) options text [] rest))
  /\ (forall m rest,
      do_parse funcs (S n) text (Many options) = Ok (m, rest) ->
      exists result,
        passes (do_parse funcs n) options text result rest
        /\ result <> [] /\ m = many_value "" result)
  /\ (forall v, many_unlabel (VList [VStr ""; v]) = Ok v).
Proof.
  assert (Sound : forall fuel nm m rest,
             match_many (do_parse funcs n) fuel text options nm = Ok (m, rest) ->
             exists result,
               passes (do_parse funcs n) options text result rest
               /\ result <> [] /\ m = many_value nm result).
  { intros fuel nm m rest H.
    destruct (many_while (do_parse funcs n) fuel options [] text)
      as [[result rest0]|e|] eqn:W;
      try (unfold match_many in H; rewrite W in H; discriminate).
    rewrite (match_many_after_loop _ _ _ _ _ _ _ W) in H.
    destruct result as [|x result]; [discriminate|].
    injection H as <- <-.
    apply many_while_is_passes in W. destruct W as (acc & P & R).
    simpl in R. subst acc. exists (x :: result).
    repeat split; [exact P | discriminate]. }
  split; [|split; [|split]]; [| | |reflexivity].
  - intros m rest. split.
    + intros [fuel H]. eapply Sound; eauto.
    + intros (result & P & N & ->).
      destruct (passes_is_many_while _ _ _ _ _ P) as [fuel H].
      exists fuel. rewrite (match_many_after_loop _ _ _ _ _ _ _ (H [])).
      destruct result; [contradiction | reflexivity].
  - split.
    + intros [fuel H].
      destruct (many_while (do_parse funcs n) fuel options [] text)
        as [[result rest0]|e|] eqn:W.
      * rewrite (match_many_after_loop _ _ _ _ _ _ _ W) in H.
        destruct result; [|discriminate].
        apply many_while_is_passes in W. destruct W as (acc & P & R).
        simpl in R. subst acc. eauto.
      * unfold match_many in H. rewrite W in H. simpl in H. injection H as ->.
        now apply many_while_Raise in W.
      * unfold match_many in H. rewrite W in H. discriminate.
    + intros [rest P].
      destruct (passes_is_many_while _ _ _ _ _ P) as [fuel H].
      exists fuel. now rewrite (match_many_after_loop _ _ _ _ _ _ _ (H [])).
  - intros m rest H. simpl in H. eapply Sound; eauto.
Qed.

Lemma match_many_in_passes_witness :
  exists result,
    passes (do_parse no_rules 1) [Str "a"; Str "aa"] "aaa" result ""
    /\ result <> [] /\ VList [VStr "a"; VStr "aa"] = many_value "" result.
Proof.
  destruct (match_many_in_passes no_rules 1 "aaa" [Str "a"; Str "aa"] "")
    as [_ [_ [H _]]].
  apply H. reflexivity.
Defined.

(** C1, as stated, fails: with the options ["a", "aa"] against "aaa", a scan
    restarted from the first option after every acceptance accepts "a" three
    times, where [match_many] accepts "a" and then "aa". *)
Lemma match_many_restart_counterexample :
  restart_scan (do_parse no_rules 1) 4 [Str "a"; Str "aa"] [] "aaa"
    = Ok ([VStr "a"; VStr "a"; VStr "a"], "")
  /\ do_parse no_rules 2 "aaa" (Many [Str "a"; Str "aa"])
    = Ok (VList [VStr "a"; VStr "aa"], "")
  /\ do_parse no_rules 2 "aaa" (Many [Str "a"; Str "aa"])
    <> Ok (VList [VStr "a"; VStr "a"; VStr "a"], "").
Proof. repeat split. discriminate. Qed.

(** ** Fuel and determinism *)

Section Extends.

Variables f g : string -> pattern -> outcome parsed.
Hypothesis Hfg : extends f g.

Lemma extends_Ok (text : string) (p : pattern) (r : parsed) :
  f text p = Ok r -> g text p = Ok r.
Proof. intros H. rewrite Hfg; rewrite H; [reflexivity | discriminate]. Qed.

Lemma extends_Raise (text : string) (p : pattern) (e : exn) :
  f text p = Raise e -> g text p = Raise e.
Proof. intros H. rewrite Hfg; rewrite H; [reflexivity | discriminate]. Qed.

(** Case analysis on a call of [f], rewriting the same call of [g]. *)
Ltac call_of_f text p :=
  let E := fresh "E" in
  destruct (f text p) as [[? ?]|?|] eqn:E;
  [ rewrite (extends_Ok _ _ _ E) | rewrite (extends_Raise _ _ _ E) | ].

Lemma tuple_loop_extends (ps : list pattern) (result : list value) (rest : string) :
  tuple_loop f ps result rest <> Diverge ->
  tuple_loop g ps result rest = tuple_loop f ps result rest.
Proof.
  revert result rest. induction ps as [|p ps IH]; intros result rest H; simpl in *;
    [reflexivity|].
  call_of_f rest p; simpl in *; try congruence.
  destruct (truthy v); now apply IH.
Qed.

Lemma match_tuple_extends (text : string) (ps : list pattern) (name : string) :
  match_tuple f text ps name <> Diverge ->
  match_tuple g text ps name = match_tuple f text ps name.
Proof.
  unfold match_tuple. intros H. apply bind_not_Diverge in H.
  now rewrite tuple_loop_extends.
Qed.

Lemma match_ignore_extends (text : string) (p : pattern) (name : string) :
  match_ignore f text p name <> Diverge ->
  match_ignore g text p name = match_ignore f text p name.
Proof.
  unfold match_ignore. intros H. apply bind_not_Diverge in H. now rewrite Hfg.
Qed.

Lemma match_one_of_extends (text : string) (options : list pattern) (name : string) :
  match_one_of f text options name <> Diverge ->
  match_one_of g text options name = match_one_of f text options name.
Proof.
  induction options as [|p options IH]; intros H; simpl in *; [reflexivity|].
  call_of_f text p; try congruence.
  - destruct (truthy v); [reflexivity | now apply IH].
  - destruct e; [now apply IH | reflexivity | reflexivity].
Qed.

Lemma many_for_extends (options : list pattern) (st : many_state) :
  many_for f options st <> Diverge ->
  many_for g options st = many_for f options st.
Proof.
  revert st. induction options as [|p options IH]; intros st H; simpl in *;
    [reflexivity|].
  call_of_f (st_rest st) p; try congruence.
  - destruct (truthy v); [|now apply IH].
    destruct (many_unlabel v); simpl in *; try congruence. now apply IH.
  - destruct e; [now apply IH | reflexivity | reflexivity].
Qed.

Lemma many_while_extends (n m : nat) (options : list pattern) (result : list value)
  (rest : string) :
  n <= m ->
  many_while f n options result rest <> Diverge ->
  many_while g m options result rest = many_while f n options result rest.
Proof.
  revert m result rest. induction n as [|n IH]; intros m result rest L H.
  - simpl in *. destruct m; simpl; destruct (rest =? ""); congruence.
  - destruct m as [|m]; [lia|]. simpl in *.
    destruct (rest =? ""); [reflexivity|].
    assert (F := bind_not_Diverge _ _ H).
    rewrite many_for_extends by exact F.
    destruct (many_for f options _) as [st| |]; simpl in *; try congruence.
    destruct (st_match_made st); simpl in *; [|reflexivity].
    apply IH; [lia | exact H].
Qed.

Lemma match_many_extends (n m : nat) (text : string) (options : list pattern)
  (name : string) :
  n <= m ->
  match_many f n text options name <> Diverge ->
  match_many g m text options name = match_many f n text options name.
Proof.
  unfold match_many. intros L H. apply bind_not_Diverge in H.
  now rewrite (many_while_extends n m).
Qed.

Lemma match_optional_extends (text : string) (p : pattern) (name : string) :
  match_optional f text p name <> Diverge ->
  match_optional g text p name = match_optional f text p name.
Proof.
  unfold match_optional. intros H.
  call_of_f text p; try reflexivity.
  congruence.
Qed.

Lemma match_indented_extends (text : string) (p : pattern) (name : string) :
  match_indented f text p name <> Diverge ->
  match_indented g text p name = match_indented f text p name.
Proof.
  unfold match_indented. intros H.
  destruct (startswith text nl); [|reflexivity].
  destruct (indent_loop (drop 1 text) "" =? ""); [reflexivity|].
  destruct (indented_loop _ _ _ _) as [[others block]| |]; simpl in *; try reflexivity.
  apply bind_not_Diverge in H. now rewrite Hfg.
Qed.

End Extends.

(** More fuel does not change the outcome of a run that ends. *)
Lemma do_parse_more_fuel (funcs : nat -> func) (n m : nat) :
  n <= m -> extends (do_parse funcs n) (do_parse funcs m).
Proof.
  revert m. induction n as [|n IH]; intros m L text p H.
  - now contradiction H.
  - destruct m as [|m]; [lia|].
    assert (E : extends (do_parse funcs n) (do_parse funcs m)) by (apply IH; lia).
    simpl in *. destruct (get_pattern_info funcs p) as [pat name].
    destruct pat; try reflexivity.
    + now apply match_tuple_extends.
    + now apply match_ignore_extends.
    + now apply match_one_of_extends.
    + apply match_many_extends; [exact E | lia | exact H].
    + now apply match_optional_extends.
    + now apply match_indented_extends.
Qed.

(** The outcome of [parse_string] does not depend on the fuel: two runs
    that end, whatever fuel each is given, end in the same way. *)
Theorem parse_string_deterministic (funcs : nat -> func) (n m : nat)
  (text : string) (p : pattern) :
  parse_string funcs n text p <> Diverge ->
  parse_string funcs m text p <> Diverge ->
  parse_string funcs n text p = parse_string funcs m text p.
Proof.
  unfold parse_string. intros Hn Hm.
  apply bind_not_Diverge in Hn, Hm.
  destruct (Nat.le_ge_cases n m) as [L | L].
  - now rewrite (do_parse_more_fuel funcs n m L text p Hn).
  - now rewrite (do_parse_more_fuel funcs m n L text p Hm).
Qed.

Lemma parse_string_deterministic_witness :
  parse_string no_rules 4 "12,34;" (Many [Words "0123456789"; Str ","])
  = parse_string no_rules 7 "12,34;" (Many [Words "0123456789"; Str ","]).
Proof.
  apply parse_string_deterministic; vm_compute; discriminate.
Defined.

(** * Further properties of the matchers *)

(** ** Prefixes *)

Lemma startswith_append (p rest : string) : startswith (p ++ rest) p = true.
Proof.
  induction p as [|c p IH]; cbn [append].
  - apply startswith_nil.
  - now rewrite startswith_cons, Ascii.eqb_refl, IH.
Qed.

Lemma drop_append (p rest : string) : drop (String.length p) (p ++ rest) = rest.
Proof. induction p as [|c p IH]; simpl; [now destruct rest | exact IH]. Qed.

Lemma startswith_split (text p : string) :
  startswith text p = true -> text = p ++ drop (String.length p) text.
Proof.
  revert text. induction p as [|c p IH]; intros text H; simpl.
  - now destruct text.
  - destruct text as [|d text]; [discriminate|].
    rewrite startswith_cons in H. apply andb_prop in H. destruct H as [H1 H2].
    apply Ascii.eqb_eq in H1. subst d. f_equal. now apply IH.
Qed.

Lemma length_append (a b : string) :
  String.length (a ++ b) = String.length a + String.length b.
Proof. induction a as [|c a IH]; simpl; [reflexivity | now rewrite IH]. Qed.

(** ** Literals *)

(** X1.  A literal matches exactly the texts that begin with it: the match
    is the literal under the given name and the rest is what follows it in
    the text; every other text raises [NoPatternFound]. *)
Theorem match_text_exact_prefix (text pat name : string) (m : value) (rest : string) :
  (match_text text pat name = Ok (m, rest)
   <-> text = pat ++ rest /\ m = VList [VStr name; VStr pat])
  /\ (match_text text pat name = Raise NoPatternFound
      <-> forall rest', text <> pat ++ rest').
Proof.
  unfold match_text. split; split.
  - destruct (startswith text pat) eqn:E; [|discriminate].
    intros H. injection H as <- <-. split; [now apply startswith_split | reflexivity].
  - intros [-> ->]. now rewrite startswith_append, drop_append.
  - destruct (startswith text pat) eqn:E; [discriminate|].
    intros _ rest' ->. now rewrite startswith_append in E.
  - intros H. destruct (startswith text pat) eqn:E; [|reflexivity].
    apply startswith_split in E. now apply H in E.
Qed.

(** ** Some *)

(** The loop of [match_some] appends to [matched] a run of the pattern's
    character and stops at the end of the text or at another character. *)
Lemma some_loop_spec (pat : string) (rest matched : string) :
  exists consumed rest',
    some_loop pat matched rest = (matched ++ consumed, rest')
    /\ rest = consumed ++ rest'
    /\ all_chars (fun c => pat =? String c "") consumed = true
    /\ (rest' = "" \/ exists c r, rest' = String c r /\ pat <> String c "").
Proof.
  revert matched. induction rest as [|c rest IH]; intros matched.
  - exists "", "". simpl. rewrite append_nil_r. auto.
  - cbn [some_loop]. destruct (pat =? String c "") eqn:E.
    + destruct (IH (matched ++ String c "")) as (consumed & rest' & H1 & H2 & H3 & H4).
      exists (String c consumed), rest'. repeat split.
      * rewrite H1, append_assoc. reflexivity.
      * simpl. now rewrite <- H2.
      * simpl. now rewrite E, H3.
      * exact H4.
    + exists "", (String c rest). rewrite append_nil_r. repeat split.
      right. exists c, rest. split; [reflexivity | now apply String.eqb_neq].
Qed.

(** X2.  [Some] consumes the longest run of its character at the front of
    the text: the text is the run followed by the rest, the rest is empty or
    begins with another character, and an empty run raises
    [NoPatternFound]. *)
Theorem match_some_longest_run (text pat name : string) :
  exists consumed rest,
    text = consumed ++ rest
    /\ all_chars (fun c => pat =? String c "") consumed = true
    /\ (rest = "" \/ exists c r, rest = String c r /\ pat <> String c "")
    /\ match_some text pat name =
         if consumed =? "" then Raise NoPatternFound
         else Ok (VList [VStr name; VStr consumed], rest).
Proof.
  destruct (some_loop_spec pat text "") as (consumed & rest & H1 & H2 & H3 & H4).
  exists consumed, rest. repeat split; auto.
  unfold match_some. rewrite H1. reflexivity.
Qed.

(** X3.  [Some] compares its pattern with one character of the text at a
    time, so a pattern that is not exactly one character long (the empty
    string, or two characters or more) matches no text at all. *)
Theorem match_some_needs_one_character (funcs : nat -> func) (fuel : nat)
  (text pat : string) :
  String.length pat <> 1 ->
  do_parse funcs (S fuel) text (Some_ pat) = Raise NoPatternFound.
Proof.
  intros L. simpl. unfold match_some.
  destruct text as [|c text]; [reflexivity|]. cbn [some_loop].
  destruct (pat =? String c "") eqn:E; [|reflexivity].
  apply String.eqb_eq in E. subst pat. now contradiction L.
Qed.

Lemma match_some_needs_one_character_witness :
  do_parse no_rules 1 "abab" (Some_ "ab") = Raise NoPatternFound.
Proof. apply match_some_needs_one_character. simpl. lia. Defined.

(** ** Words *)

Lemma words_loop_spec (letters : string) (rest matched : string) :
  exists consumed rest',
    words_loop letters matched rest = (matched ++ consumed, rest')
    /\ rest = consumed ++ rest'
    /\ all_chars (fun c => char_in c letters) consumed = true
    /\ (rest' = "" \/ exists c r, rest' = String c r /\ char_in c letters = false).
Proof.
  revert matched. induction rest as [|c rest IH]; intros matched.
  - exists "", "". simpl. rewrite append_nil_r. auto.
  - cbn [words_loop]. destruct (char_in c letters) eqn:E.
    + destruct (IH (matched ++ String c "")) as (consumed & rest' & H1 & H2 & H3 & H4).
      exists (String c consumed), rest'. repeat split.
      * rewrite H1, append_assoc. reflexivity.
      * simpl. now rewrite <- H2.
      * simpl. now rewrite E, H3.
      * exact H4.
    + exists "", (String c rest). rewrite append_nil_r. repeat split.
      right. exists c, rest. auto.
Qed.

(** X4.  [Words] consumes the longest run of characters of its letters at
    the front of the text: the rest is empty or begins with a character that
    is not one of the letters, and an empty run raises [NoPatternFound]. *)
Theorem match_words_longest_run (text letters name : string) :
  exists consumed rest,
    text = consumed ++ rest
    /\ all_chars (fun c => char_in c letters) consumed = true
    /\ (rest = "" \/ exists c r, rest = String c r /\ char_in c letters = false)
    /\ match_words text letters name =
         if consumed =? "" then Raise NoPatternFound
         else Ok (VList [VStr name; VStr consumed], rest).
Proof.
  destruct (words_loop_spec letters text "") as (consumed & rest & H1 & H2 & H3 & H4).
  exists consumed, rest. repeat split; auto.
  unfold match_words. rewrite H1. reflexivity.
Qed.

(** ** What a match consumes *)

Lemma append_not_nil_l (a b : string) : a <> "" -> a ++ b <> "".
Proof. destruct a; simpl; [congruence | discriminate]. Qed.

Lemma append_not_nil_r (a b : string) : b <> "" -> a ++ b <> "".
Proof. destruct a; simpl; [congruence | discriminate]. Qed.

Lemma match_many_Ok_inv (parse : string -> pattern -> outcome parsed) (fuel : nat)
  (text : string) (options : list pattern) (name : string) (m : value) (rest : string) :
  match_many parse fuel text options name = Ok (m, rest) ->
  exists result,
    many_while parse fuel options [] text = Ok (result, rest)
    /\ result <> [] /\ m = many_value name result.
Proof.
  intros H.
  destruct (many_while parse fuel options [] text) as [[result rest0]|e|] eqn:W;
    try (unfold match_many in H; rewrite W in H; discriminate).
  rewrite (match_many_after_loop _ _ _ _ _ _ _ W) in H.
  destruct result as [|x result]; [discriminate|].
  injection H as <- <-. exists (x :: result). repeat split. discriminate.
Qed.

Section Consumes.

Variable strict : bool.
Variable parse : string -> pattern -> outcome parsed.

Lemma tuple_loop_consumes (ps : list pattern) :
  Forall (consumes strict parse) ps ->
  forall result rest result' rest',
    tuple_loop parse ps result rest = Ok (result', rest') ->
    exists consumed added,
      rest = consumed ++ rest' /\ result' = (result ++ added)%list
      /\ (strict = true -> added <> [] -> consumed <> "").
Proof.
  induction 1 as [|p ps Hp _ IH]; intros result rest result' rest' H; simpl in H.
  - injection H as <- <-. exists "", []. rewrite app_nil_r. repeat split. congruence.
  - apply bind_Ok_inv in H. destruct H as ([m r1] & E & H).
    destruct (Hp _ _ _ E) as (c1 & -> & S1).
    destruct (truthy m) eqn:T; apply IH in H; destruct H as (c2 & added & -> & -> & S2).
    + exists (c1 ++ c2), (m :: added). rewrite append_assoc, <- app_assoc.
      repeat split. intros St _. apply append_not_nil_l. auto.
    + exists (c1 ++ c2), added. rewrite append_assoc.
      repeat split. intros St A. apply append_not_nil_r. auto.
Qed.

Lemma match_tuple_consumes (text : string) (ps : list pattern) (name : string)
  (m : value) (rest : string) :
  Forall (consumes strict parse) ps ->
  match_tuple parse text ps name = Ok (m, rest) ->
  exists consumed, text = consumed ++ rest /\ (strict = true -> consumed <> "").
Proof.
  intros F H. unfold match_tuple in H.
  apply bind_Ok_inv in H. destruct H as ([result rest0] & L & H).
  apply bind_Ok_inv in H. destruct H as (v1 & G1 & H).
  apply bind_Ok_inv in H. destruct H as (v2 & G2 & H).
  apply bind_Ok_inv in H. destruct H as (v3 & G3 & H).
  injection H as <- <-.
  destruct (tuple_loop_consumes ps F _ _ _ _ L) as (consumed & added & -> & -> & S).
  exists consumed. split; [reflexivity|]. intros St. apply S; [exact St|].
  intros ->. simpl in G1. injection G1 as <-. discriminate.
Qed.

Lemma match_ignore_consumes (text : string) (p : pattern) (name : string)
  (m : value) (rest : string) :
  consumes strict parse p ->
  match_ignore parse text p name = Ok (m, rest) ->
  m = VList [] /\ exists consumed, text = consumed ++ rest.
Proof.
  intros C H. unfold match_ignore in H.
  apply bind_Ok_inv in H. destruct H as ([m0 r0] & E & H). injection H as <- <-.
  destruct (C _ _ _ E) as (consumed & -> & _). eauto.
Qed.

Lemma match_one_of_consumes (text : string) (options : list pattern) (name : string)
  (m : value) (rest : string) :
  Forall (consumes strict parse) options ->
  match_one_of parse text options name = Ok (m, rest) ->
  exists consumed, text = consumed ++ rest /\ (strict = true -> consumed <> "").
Proof.
  induction 1 as [|p options Hp _ IH]; intros H; simpl in H; [discriminate|].
  destruct (parse text p) as [[m0 r0]|e|] eqn:E; try discriminate.
  - destruct (truthy m0) eqn:T; [|auto].
    destruct (Hp _ _ _ E) as (consumed & -> & S).
    assert (r0 = rest) as ->.
    { apply bind_Ok_inv in H. destruct H as (u & _ & H). destruct u.
      - apply bind_Ok_inv in H. destruct H as (m1 & _ & H). now injection H.
      - now injection H. }
    exists consumed. auto.
  - destruct e; try discriminate. auto.
Qed.

Lemma pass_consumes (options : list pattern) (rest rest' : string)
  (accepted : list value) :
  Forall (consumes strict parse) options ->
  pass parse options rest accepted rest' ->
  exists consumed,
    rest = consumed ++ rest' /\ (strict = true -> accepted <> [] -> consumed <> "").
Proof.
  intros F P. induction P as [rest | p options rest acc rest' E _ IH
                             | p options rest m rest1 acc rest' E T _ IH
                             | p options rest m rest1 v acc rest' E T U _ IH].
  - exists "". split; [reflexivity | congruence].
  - inversion F; subst. auto.
  - inversion F as [|? ? Hp F']; subst.
    destruct (Hp _ _ _ E) as (c1 & -> & _).
    destruct (IH F') as (c2 & -> & S2).
    exists (c1 ++ c2). rewrite append_assoc. split; [reflexivity|].
    intros St A. apply append_not_nil_r. auto.
  - inversion F as [|? ? Hp F']; subst.
    destruct (Hp _ _ _ E) as (c1 & -> & S1).
    destruct (IH F') as (c2 & -> & _).
    exists (c1 ++ c2). rewrite append_assoc. split; [reflexivity|].
    intros St _. apply append_not_nil_l. auto.
Qed.

Lemma passes_consumes (options : list pattern) (rest rest' : string)
  (result : list value) :
  Forall (consumes strict parse) options ->
  passes parse options rest result rest' ->
  exists consumed,
    rest = consumed ++ rest' /\ (strict = true -> result <> [] -> consumed <> "").
Proof.
  intros F P. induction P as [| rest rest' N P | rest acc rest1 accs rest' N P A _ IH].
  - exists "". split; [reflexivity | congruence].
  - destruct (pass_consumes _ _ _ _ F P) as (c & -> & S). eauto.
  - destruct (pass_consumes _ _ _ _ F P) as (c1 & -> & S1).
    destruct IH as (c2 & -> & _).
    exists (c1 ++ c2). rewrite append_assoc. split; [reflexivity|].
    intros St _. apply append_not_nil_l. auto.
Qed.

Lemma match_many_consumes (fuel : nat) (text : string) (options : list pattern)
  (name : string) (m : value) (rest : string) :
  Forall (consumes strict parse) options ->
  match_many parse fuel text options name = Ok (m, rest) ->
  exists consumed, text = consumed ++ rest /\ (strict = true -> consumed <> "").
Proof.
  intros F H. apply match_many_Ok_inv in H. destruct H as (result & W & N & _).
  apply many_while_is_passes in W. destruct W as (acc & P & R). simpl in R. subst acc.
  destruct (passes_consumes _ _ _ _ F P) as (consumed & -> & S). eauto.
Qed.

Lemma match_optional_consumes (text : string) (p : pattern) (name : string) :
  consumes strict parse p ->
  forall m rest, match_optional parse text p name = Ok (m, rest) ->
  exists consumed,
    text = consumed ++ rest /\ (strict = true -> truthy m = true -> consumed <> "").
Proof.
  intros C m rest H. unfold match_optional in H.
  destruct (parse text p) as [[m0 r0]|e|] eqn:E.
  - injection H as <- <-. eauto.
  - destruct e; try discriminate. injection H as <- <-.
    exists "". split; [reflexivity | discriminate].
  - discriminate.
Qed.

End Consumes.

(** The matchers without sub-patterns consume what they match. *)
Lemma leaf_consumes (text pat name : string) (m : value) (rest : string) :
  match_some text pat name = Ok (m, rest)
  \/ match_words text pat name = Ok (m, rest)
  \/ match_not text pat name = Ok (m, rest) ->
  exists consumed, text = consumed ++ rest /\ consumed <> "".
Proof.
  intros [H | [H | H]].
  - unfold match_some in H.
    destruct (some_loop_spec pat text "") as (c & r & E & -> & _ & _).
    rewrite E in H. simpl in H. destruct (c =? "") eqn:N; [discriminate|].
    injection H as _ <-. apply String.eqb_neq in N. eauto.
  - unfold match_words in H.
    destruct (words_loop_spec pat text "") as (c & r & E & -> & _ & _).
    rewrite E in H. simpl in H. destruct (c =? "") eqn:N; [discriminate|].
    injection H as _ <-. apply String.eqb_neq in N. eauto.
  - unfold match_not in H.
    destruct (not_loop_spec pat text "") as (c & r & E & -> & _ & _).
    rewrite E in H. simpl in H. destruct (c =? "") eqn:N; [discriminate|].
    injection H as _ <-. apply String.eqb_neq in N. eauto.
Qed.

Lemma shaped_list (strict : bool) (ps : list pattern) :
  shaped strict (Tuple ps) = forallb (shaped strict) ps
  /\ shaped strict (OneOf ps) = forallb (shaped strict) ps
  /\ shaped strict (Many ps) = forallb (shaped strict) ps.
Proof. destruct strict; repeat split. Qed.

(** A property of the shaped patterns holds of the sub-patterns of a shaped
    pattern. *)
Lemma subpatterns_Forall (strict : bool) (rules : Prop) (Q : pattern -> Prop)
  (ps : list pattern) :
  (forall p, shaped strict p = true -> rule_free p = true \/ rules -> Q p) ->
  forallb (shaped strict) ps = true ->
  forallb rule_free ps = true \/ rules ->
  Forall Q ps.
Proof.
  intros HQ Hs Hr. apply Forall_forall. intros q Hq.
  apply HQ.
  - rewrite forallb_forall in Hs. now apply Hs.
  - destruct Hr as [Hr | Hr]; [left | now right].
    rewrite forallb_forall in Hr. now apply Hr.
Qed.

(** Case analysis on the pattern that [do_parse] dispatches on, for the
    proof of [do_parse_consumes]. *)
Ltac consumes_after_dispatch strict IH Hs Hr H :=
  lazymatch type of H with
  | match_text ?text ?s ?name = Ok (?m, ?rest) =>
      unfold match_text in H;
      let E := fresh "E" in
      destruct (startswith text s) eqn:E; [|discriminate];
      injection H as <- <-; exists s; split; [now apply startswith_split|];
      intros -> _; simpl in Hs; intros ->; discriminate
  | match_tuple _ _ ?ps _ = Ok _ =>
      rewrite (proj1 (shaped_list strict ps)) in Hs;
      let C := fresh "C" in
      let F := fresh "F" in
      assert (F := subpatterns_Forall strict _ _ ps IH Hs
                     ltac:(first [exact Hr | right; exact Hr]));
      destruct (match_tuple_consumes strict _ _ _ _ _ _ F H) as (? & -> & C);
      eauto
  | match_one_of _ _ ?ps _ = Ok _ =>
      rewrite (proj1 (proj2 (shaped_list strict ps))) in Hs;
      let C := fresh "C" in
      let F := fresh "F" in
      assert (F := subpatterns_Forall strict _ _ ps IH Hs
                     ltac:(first [exact Hr | right; exact Hr]));
      destruct (match_one_of_consumes strict _ _ _ _ _ _ F H) as (? & -> & C);
      eauto
  | match_many _ _ _ ?ps _ = Ok _ =>
      rewrite (proj2 (proj2 (shaped_list strict ps))) in Hs;
      let C := fresh "C" in
      let F := fresh "F" in
      assert (F := subpatterns_Forall strict _ _ ps IH Hs
                     ltac:(first [exact Hr | right; exact Hr]));
      destruct (match_many_consumes strict _ _ _ _ _ _ _ F H) as (? & -> & C);
      eauto
  | match_some _ _ _ = Ok _ =>
      destruct (leaf_consumes _ _ _ _ _ (or_introl H)) as (? & -> & ?); eauto
  | match_words _ _ _ = Ok _ =>
      destruct (leaf_consumes _ _ _ _ _ (or_intror (or_introl H))) as (? & -> & ?); eauto
  | match_not _ _ _ = Ok _ =>
      destruct (leaf_consumes _ _ _ _ _ (or_intror (or_intror H))) as (? & -> & ?); eauto
  | match_ignore _ _ ?q _ = Ok _ =>
      let C := fresh "C" in
      assert (C : consumes strict _ q)
        by (apply IH; [now destruct strict | first [exact Hr | right; exact Hr]]);
      destruct (match_ignore_consumes strict _ _ _ _ _ _ C H) as (-> & ? & ->);
      eexists; split; [reflexivity | discriminate]
  | match_optional _ _ ?q _ = Ok _ =>
      let C := fresh "C" in
      assert (C : consumes strict _ q)
        by (apply IH; [now destruct strict | first [exact Hr | right; exact Hr]]);
      exact (match_optional_consumes strict _ _ _ _ C _ _ H)
  | match_indented _ _ _ _ = Ok _ => now destruct strict
  | _ => discriminate
  end.

(** Whatever the fuel, a shaped pattern consumes what it matches, provided
    it holds no callable or every rule of the grammar is shaped as well. *)
Lemma do_parse_consumes (strict : bool) (funcs : nat -> func) (n : nat) (p : pattern) :
  shaped strict p = true ->
  rule_free p = true \/ (forall f, shaped strict (call (funcs f)) = true) ->
  consumes strict (do_parse funcs n) p.
Proof.
  revert p. induction n as [|n IH]; intros p Hs Hr text m rest H; [discriminate|].
  destruct p; simpl in H, Hr;
    try (consumes_after_dispatch strict IH Hs Hr H; fail).
  destruct Hr as [Hr | Hr]; [discriminate|].
  specialize (Hr f) as Hs'.
  destruct (call (funcs f)) as [s|ps|c|l|q|ps|ps|s|q|q|g|];
    consumes_after_dispatch strict IH Hs' Hr H.
Qed.

(** X5.  A pattern without [Indented] consumes a prefix: when it matches,
    the rest it returns is what follows a consumed part of the text.  The
    pattern holds no callable, or no rule of the grammar holds [Indented]
    either. *)
Theorem do_parse_rest_is_suffix (funcs : nat -> func) (fuel : nat) (text : string)
  (p : pattern) (m : value) (rest : string) :
  indent_free p = true ->
  rule_free p = true \/ (forall f, indent_free (call (funcs f)) = true) ->
  do_parse funcs fuel text p = Ok (m, rest) ->
  exists consumed, text = consumed ++ rest.
Proof.
  intros Hs Hr H.
  destruct (do_parse_consumes false funcs fuel p Hs Hr _ _ _ H) as (consumed & E & _).
  eauto.
Qed.

Lemma do_parse_rest_is_suffix_witness :
  exists consumed, "12,34;" = consumed ++ ";".
Proof.
  apply (do_parse_rest_is_suffix no_rules 4 "12,34;"
           (Many [Words "0123456789"; Optional (Str ",")])
           (VList [VStr "12"; VStr ","; VStr "34"]) ";").
  - reflexivity.
  - left. reflexivity.
  - reflexivity.
Defined.



(** ** Runs that end *)

Lemma bind_ends {A B} (m : outcome A) (k : A -> outcome B) :
  m <> Diverge -> (forall a, m = Ok a -> k a <> Diverge) -> bind m k <> Diverge.
Proof. destruct m; simpl; intros H K; [now apply K | discriminate | congruence]. Qed.

Lemma getitem_ends (v : value) (i : nat) : getitem v i <> Diverge.
Proof.
  destruct v as [s|l]; simpl.
  - destruct (String.get i s); discriminate.
  - destruct (nth_error l i); discriminate.
Qed.

Lemma many_unlabel_ends (m : value) : many_unlabel m <> Diverge.
Proof.
  unfold many_unlabel. apply bind_ends; [apply getitem_ends|].
  intros m0 _. destruct (negb (truthy m0) || eq_str m0 "<lambda>");
    [apply getitem_ends | discriminate].
Qed.

Lemma consumed_length (strict : bool) (parse : string -> pattern -> outcome parsed)
  (p : pattern) (text : string) (m : value) (rest : string) :
  consumes strict parse p -> parse text p = Ok (m, rest) ->
  String.length rest <= String.length text.
Proof.
  intros C H. destruct (C _ _ _ H) as (c & -> & _). rewrite length_append. lia.
Qed.

Section Ends.

Variable parse : string -> pattern -> outcome parsed.
Variable bound : nat.

Lemma tuple_loop_ends (ps : list pattern) :
  Forall (fun q => ends_within parse bound q /\ consumes true parse q) ps ->
  forall result rest,
    String.length rest <= bound -> tuple_loop parse ps result rest <> Diverge.
Proof.
  induction 1 as [|p ps [Hp Cp] _ IH]; intros result rest L; simpl; [discriminate|].
  apply bind_ends; [now apply Hp|].
  intros [m r1] E. pose proof (consumed_length _ _ _ _ _ _ Cp E).
  destruct (truthy m); apply IH; lia.
Qed.

Lemma match_tuple_ends (text : string) (ps : list pattern) (name : string) :
  Forall (fun q => ends_within parse bound q /\ consumes true parse q) ps ->
  String.length text <= bound -> match_tuple parse text ps name <> Diverge.
Proof.
  intros F L. unfold match_tuple.
  apply bind_ends; [now apply tuple_loop_ends|]. intros [result rest] _.
  apply bind_ends.
  { destruct (Nat.eqb (List.length result) 1); [apply getitem_ends | discriminate]. }
  intros v1 _. apply bind_ends; [apply getitem_ends|].
  intros v2 _. apply bind_ends; [|discriminate].
  destruct (negb (truthy v2)); [apply getitem_ends | discriminate].
Qed.

Lemma match_one_of_ends (text : string) (options : list pattern) (name : string) :
  Forall (ends_within parse bound) options ->
  String.length text <= bound -> match_one_of parse text options name <> Diverge.
Proof.
  intros F L. induction F as [|p options Hp _ IH]; simpl; [discriminate|].
  specialize (Hp text L).
  destruct (parse text p) as [[m rest]|e|]; [| |congruence].
  - destruct (truthy m); [|exact IH].
    apply bind_ends.
    + simpl. apply bind_ends; [apply getitem_ends | discriminate].
    + intros [|] _; [|discriminate].
      apply bind_ends; [apply getitem_ends | discriminate].
  - destruct e; [exact IH | discriminate | discriminate].
Qed.

Lemma many_for_ends (options : list pattern) :
  Forall (fun q => ends_within parse bound q /\ consumes true parse q) options ->
  forall st, String.length (st_rest st) <= bound -> many_for parse options st <> Diverge.
Proof.
  induction 1 as [|p options [Hp Cp] _ IH]; intros st L; simpl; [discriminate|].
  specialize (Hp _ L).
  destruct (parse (st_rest st) p) as [[m rest]|e|] eqn:E; [| |congruence].
  - pose proof (consumed_length _ _ _ _ _ _ Cp E).
    destruct (truthy m).
    + apply bind_ends; [apply many_unlabel_ends|]. intros v _. apply IH. simpl. lia.
    + apply IH. simpl. lia.
  - destruct e; [now apply IH | discriminate | discriminate].
Qed.

(** The [while] loop ends within as many passes as the text has characters,
    when every accepted match consumes one at least. *)
Lemma many_while_ends (options : list pattern) :
  Forall (fun q => ends_within parse bound q /\ consumes true parse q) options ->
  forall fuel result rest,
    String.length rest <= fuel -> String.length rest <= bound ->
    many_while parse fuel options result rest <> Diverge.
Proof.
  intros F. induction fuel as [|fuel IH]; intros result rest Lf Lb.
  - destruct rest; [discriminate | simpl in Lf; lia].
  - simpl. destruct (rest =? "") eqn:N; [discriminate|].
    apply bind_ends; [now apply many_for_ends|].
    intros st Hst. destruct (st_match_made st) eqn:M; [|discriminate]. simpl.
    apply many_for_is_pass in Hst. destruct Hst as (acc & P & _ & Hm).
    simpl in P, Hm. rewrite M in Hm.
    assert (Fc : Forall (consumes true parse) options).
    { eapply Forall_impl; [|exact F]. now intros q [_ C]. }
    destruct (pass_consumes true parse _ _ _ _ Fc P) as (c & E & S).
    assert (c <> "") by (apply S; [reflexivity | now destruct acc]).
    rewrite E, length_append in Lf, Lb.
    destruct c; [congruence|]. simpl in Lf, Lb. apply IH; lia.
Qed.

Lemma match_many_ends (fuel : nat) (text : string) (options : list pattern)
  (name : string) :
  Forall (fun q => ends_within parse bound q /\ consumes true parse q) options ->
  String.length text <= fuel -> String.length text <= bound ->
  match_many parse fuel text options name <> Diverge.
Proof.
  intros F Lf Lb. unfold match_many.
  apply bind_ends; [now apply many_while_ends|].
  intros [[|x result] rest] _; [discriminate|].
  apply bind_ends.
  - destruct (Nat.eqb _ 1); [apply getitem_ends | discriminate].
  - intros v _. destruct (negb (name =? "")); discriminate.
Qed.

End Ends.

Lemma depth_positive (p : pattern) : 1 <= depth p.
Proof. destruct p; simpl; lia. Qed.

Lemma depth_of_member (q : pattern) (ps : list pattern) :
  In q ps -> depth q <= fold_right (fun q d => Nat.max (depth q) d) 0 ps.
Proof.
  induction ps as [|p ps IH]; simpl; [contradiction|].
  intros [-> | H]; [lia | specialize (IH H); lia].
Qed.

(** The sub-patterns of a list pattern end and consume, when all patterns
    less deep do. *)
Lemma subpatterns_end (funcs : nat -> func) (n : nat) (ps : list pattern)
  (bound : nat) :
  (forall p, rule_free p = true -> productive p = true ->
             forall text, depth p + String.length text <= n ->
                          do_parse funcs n text p <> Diverge) ->
  forallb rule_free ps = true -> forallb productive ps = true ->
  fold_right (fun q d => Nat.max (depth q) d) 0 ps + bound <= n ->
  Forall (fun q => ends_within (do_parse funcs n) bound q
                   /\ consumes true (do_parse funcs n) q) ps.
Proof.
  intros IH Hr Hp L. apply Forall_forall. intros q Hq.
  rewrite forallb_forall in Hr, Hp. pose proof (depth_of_member _ _ Hq).
  split.
  - intros text Lt. apply IH; auto. lia.
  - apply do_parse_consumes; [now apply Hp | left; now apply Hr].
Qed.

Lemma do_parse_ends (funcs : nat -> func) (n : nat) (p : pattern) :
  rule_free p = true -> productive p = true ->
  forall text, depth p + String.length text <= n ->
               do_parse funcs n text p <> Diverge.
Proof.
  revert p. induction n as [|n IH]; intros p Hr Hp text L.
  - pose proof (depth_positive p). lia.
  - destruct p as [s|ps|c|l|q|ps|ps|s|q|q|g|]; simpl in *; try discriminate.
    + unfold match_text. destruct (startswith text s); discriminate.
    + apply (match_tuple_ends _ (String.length text)); [|lia].
      apply subpatterns_end; auto. lia.
    + unfold match_some. destruct (some_loop c "" text) as [a b].
      destruct (a =? ""); discriminate.
    + unfold match_words. destruct (words_loop l "" text) as [a b].
      destruct (a =? ""); discriminate.
    + unfold match_ignore. apply bind_ends; [apply IH; auto; lia|].
      intros [m r] _. discriminate.
    + apply (match_one_of_ends _ (String.length text)); [|lia].
      eapply Forall_impl; [|apply (subpatterns_end funcs n ps (String.length text))];
        auto; [now intros q [E _] | lia].
    + apply (match_many_ends _ (String.length text)); [|lia|lia].
      apply subpatterns_end; auto. lia.
    + unfold match_not. destruct (not_loop s "" text) as [a b].
      destruct (a =? ""); discriminate.
    + unfold match_optional.
      assert (E : do_parse funcs n text q <> Diverge) by (apply IH; auto; lia).
      destruct (do_parse funcs n text q) as [r|e|]; [discriminate| |congruence].
      destruct e; discriminate.
Qed.

(** X7.  Matching terminates on a pattern built without rules, without
    [Indented] and without the empty literal: fuel for the depth of the
    pattern plus the length of the text is enough, and more fuel gives the
    same outcome. *)
Theorem do_parse_terminates (funcs : nat -> func) (text : string) (p : pattern)
  (fuel : nat) :
  rule_free p = true -> productive p = true ->
  depth p + String.length text <= fuel ->
  do_parse funcs fuel text p <> Diverge
  /\ do_parse funcs fuel text p
     = do_parse funcs (depth p + String.length text) text p.
Proof.
  intros Hr Hp L.
  assert (E := do_parse_ends funcs _ p Hr Hp text (Nat.le_refl _)).
  rewrite (do_parse_more_fuel funcs _ fuel L text p E). auto.
Qed.

Lemma do_parse_terminates_witness :
  do_parse no_rules 20 "12,34;" (Many [Words "0123456789"; Str ","]) <> Diverge
  /\ do_parse no_rules 20 "12,34;" (Many [Words "0123456789"; Str ","])
     = do_parse no_rules
         (depth (Many [Words "0123456789"; Str ","]) + String.length "12,34;")
         "12,34;" (Many [Words "0123456789"; Str ","]).
Proof.
  apply do_parse_terminates; [reflexivity | reflexivity | simpl; lia].
Defined.

(** X8.  The loop of [match_many] makes at most as many passes as the text
    has characters, whatever the options, as long as every option ends on
    the texts that are no longer than this one and every non-empty match of
    an option has consumed a character. *)
Theorem match_many_ends_on_progress (parse : string -> pattern -> outcome parsed)
  (fuel : nat) (text : string) (options : list pattern) (name : string) :
  Forall (fun q => ends_within parse (String.length text) q
                   /\ consumes true parse q) options ->
  String.length text <= fuel ->
  match_many parse fuel text options name <> Diverge.
Proof. intros F L. now apply (match_many_ends _ (String.length text)). Qed.

Lemma match_many_ends_on_progress_witness :
  match_many (do_parse no_rules 3) 2 "ab" [Str "a"; Some_ "b"] "" <> Diverge.
Proof.
  apply match_many_ends_on_progress; [|simpl; lia].
  apply (subpatterns_end no_rules 3 [Str "a"; Some_ "b"] 2);
    [|reflexivity|reflexivity|simpl; lia].
  intros p Hr Hp text L. apply do_parse_ends; auto.
Defined.

(** ** The shape of the matches *)

Lemma truthy_well_formed (m : value) :
  empty_or_well_formed m = true -> truthy m = true -> well_formed m = true.
Proof. destruct m as [s|[|x l]]; simpl; auto. Qed.

Lemma well_formed_list (l : list value) :
  well_formed (VList l) = true ->
  exists a b l', l = a :: b :: l' /\ well_formed a = true /\ well_formed b = true.
Proof.
  destruct l as [|a [|b l']]; simpl; try discriminate.
  rewrite !andb_true_iff. intros (A & B & _). eauto 7.
Qed.

Lemma well_formed_of_list (l : list value) :
  Forall (fun v => well_formed v = true) l -> 2 <= List.length l ->
  well_formed (VList l) = true.
Proof.
  intros F L. cbn [well_formed]. apply andb_true_iff. split.
  - now apply Nat.leb_le.
  - apply forallb_forall. rewrite Forall_forall in F. exact F.
Qed.

Lemma well_formed_pair (name : string) (v : value) :
  well_formed v = true -> well_formed (VList [VStr name; v]) = true.
Proof. intros H. simpl. now rewrite H. Qed.

Lemma one_char_is_not_lambda (c : ascii) : eq_str (VStr (String c "")) "<lambda>" = false.
Proof. simpl. destruct (c =? "<")%char; reflexivity. Qed.

(** On a non-empty well-formed match, the two index accesses of
    [match_many] are within bounds and leave a well-formed match. *)
Lemma many_unlabel_well_formed (m : value) :
  well_formed m = true -> truthy m = true ->
  exists v, many_unlabel m = Ok v /\ well_formed v = true.
Proof.
  intros W T. unfold many_unlabel. destruct m as [s|l].
  - destruct s as [|c s]; [discriminate|]. simpl getitem. cbn [bind].
    rewrite one_char_is_not_lambda. simpl. eauto.
  - destruct (well_formed_list _ W) as (a & b & l' & -> & Wa & Wb).
    simpl getitem. cbn [bind].
    destruct (negb (truthy a) || eq_str a "<lambda>"); simpl; eauto.
Qed.

(** The same for the index accesses of [match_one_of]. *)
Lemma one_of_return_well_formed (m : value) (rest : string) :
  well_formed m = true -> truthy m = true ->
  exists v,
    (unwrap <- (if negb (truthy m) then Ok true
                else m0 <- getitem m 0 ;; Ok (eq_str m0 "<lambda>")) ;;
     if (unwrap : bool) then m1 <- getitem m 1 ;; Ok (m1, rest) else Ok (m, rest))
    = Ok (v, rest)
    /\ well_formed v = true.
Proof.
  intros W T. rewrite T. cbn [negb]. destruct m as [s|l].
  - destruct s as [|c s]; [discriminate|]. simpl getitem. cbn [bind].
    rewrite one_char_is_not_lambda. eauto.
  - destruct (well_formed_list _ W) as (a & b & l' & -> & Wa & Wb).
    simpl getitem. cbn [bind].
    destruct (eq_str a "<lambda>"); simpl; eauto.
Qed.

Section Values.

Variable parse : string -> pattern -> outcome parsed.
Hypothesis parse_values :
  forall text p m rest, parse text p = Ok (m, rest) -> empty_or_well_formed m = true.

Lemma tuple_loop_values (ps : list pattern) (result result' : list value)
  (rest rest' : string) :
  Forall (fun v => well_formed v = true /\ truthy v = true) result ->
  tuple_loop parse ps result rest = Ok (result', rest') ->
  Forall (fun v => well_formed v = true /\ truthy v = true) result'.
Proof.
  revert result rest. induction ps as [|p ps IH]; intros result rest F H; simpl in H.
  - now injection H as <- <-.
  - apply bind_Ok_inv in H. destruct H as ([m r1] & E & H).
    destruct (truthy m) eqn:T; [|eauto].
    apply IH in H; [exact H|]. apply Forall_app. split; [exact F|].
    constructor; [|constructor]. split; [|exact T].
    apply truthy_well_formed; eauto.
Qed.

(** What [match_tuple] makes of the non-empty matches of its sub-patterns,
    when there is one at least. *)
Lemma match_tuple_value (text : string) (ps : list pattern) (name : string)
  (result : list value) (rest : string) :
  tuple_loop parse ps [] text = Ok (result, rest) -> result <> [] ->
  exists v,
    match_tuple parse text ps name = Ok (VList [VStr name; v], rest)
    /\ well_formed v = true /\ tuple_keeps_list result v.
Proof.
  intros L N. unfold match_tuple. rewrite L. cbn [bind].
  pose proof (tuple_loop_values _ _ _ _ _ (Forall_nil _) L) as F.
  destruct result as [|x [|y result]]; [contradiction | |].
  - inversion F as [|? ? [Wx Tx] _]; subst. simpl Nat.eqb. cbv iota.
    simpl getitem at 1. cbn [bind].
    destruct x as [s|l].
    + destruct s as [|c s]; [discriminate|]. simpl.
      exists (VStr (String c s)). repeat split. intros Hl. simpl in Hl. lia.
    + destruct (well_formed_list _ Wx) as (a & b & l' & -> & Wa & Wb).
      simpl getitem. cbn [bind].
      destruct (negb (truthy a)); simpl; eexists; repeat split; eauto;
        intros Hl; simpl in Hl; lia.
  - inversion F as [|? ? [Wx Tx] F']; subst. simpl Nat.eqb. cbv iota.
    cbn [bind]. simpl getitem. cbn [bind]. rewrite Tx. cbn [negb bind].
    exists (VList (x :: y :: result)). repeat split.
    apply well_formed_of_list; [|simpl; lia].
    eapply Forall_impl; [|exact F]. now intros v [W _].
Qed.

Lemma match_tuple_values (text : string) (ps : list pattern) (name : string)
  (m : value) (rest : string) :
  match_tuple parse text ps name = Ok (m, rest) -> well_formed m = true.
Proof.
  intros H.
  destruct (tuple_loop parse ps [] text) as [[result rest0]|e|] eqn:L;
    try (unfold match_tuple in H; rewrite L in H; discriminate).
  destruct result as [|x result].
  - unfold match_tuple in H. rewrite L in H. discriminate.
  - destruct (match_tuple_value text ps name _ _ L) as (v & E & W & _); [discriminate|].
    rewrite E in H. injection H as <- _. now apply well_formed_pair.
Qed.

Lemma match_one_of_values (text : string) (options : list pattern) (name : string)
  (m : value) (rest : string) :
  match_one_of parse text options name = Ok (m, rest) -> well_formed m = true.
Proof.
  induction options as [|p options IH]; intros H; simpl in H; [discriminate|].
  destruct (parse text p) as [[m0 r0]|e|] eqn:E; try discriminate.
  - destruct (truthy m0) eqn:T; [|auto].
    destruct (one_of_return_well_formed m0 r0) as (v & R & W); auto.
    { apply truthy_well_formed; eauto. }
    rewrite T in R. rewrite R in H. now injection H as <- _.
  - destruct e; try discriminate. auto.
Qed.

Lemma pass_values (options : list pattern) (rest rest' : string)
  (accepted : list value) :
  pass parse options rest accepted rest' ->
  Forall (fun v => well_formed v = true) accepted.
Proof.
  induction 1 as [rest | p options rest acc rest' E _ IH
                 | p options rest m rest1 acc rest' E T _ IH
                 | p options rest m rest1 v acc rest' E T U _ IH]; auto.
  constructor; [|exact IH].
  destruct (many_unlabel_well_formed m) as (v' & U' & W); auto.
  { apply truthy_well_formed; eauto. }
  congruence.
Qed.

Lemma passes_values (options : list pattern) (rest rest' : string)
  (result : list value) :
  passes parse options rest result rest' ->
  Forall (fun v => well_formed v = true) result.
Proof.
  induction 1 as [| rest rest' N P | rest acc rest1 accs rest' N P A _ IH]; auto.
  apply Forall_app. split; [now apply pass_values in P | exact IH].
Qed.

Lemma match_many_values (fuel : nat) (text : string) (options : list pattern)
  (name : string) (m : value) (rest : string) :
  match_many parse fuel text options name = Ok (m, rest) -> well_formed m = true.
Proof.
  intros H. apply match_many_Ok_inv in H. destruct H as (result & W & N & ->).
  apply many_while_is_passes in W. destruct W as (acc & P & R). simpl in R. subst acc.
  apply passes_values in P.
  assert (Wv : well_formed (match result with [x] => x | _ => VList result end) = true).
  { destruct result as [|x [|y result]]; [contradiction | |].
    - now inversion P.
    - apply well_formed_of_list; [exact P | simpl; lia]. }
  unfold many_value. destruct (name =? ""); [exact Wv | now apply well_formed_pair].
Qed.

End Values.

Lemma well_formed_is_allowed (m : value) :
  well_formed m = true -> empty_or_well_formed m = true.
Proof. now destruct m as [s|[|x l]]. Qed.

(** Case analysis on the pattern that [do_parse] dispatches on, for the
    proof of [do_parse_values]. *)
Ltac values_after_dispatch IH H :=
  lazymatch type of H with
  | match_text ?text ?s _ = Ok _ =>
      unfold match_text in H; destruct (startswith text s); [|discriminate];
      now injection H as <- _
  | match_some ?text ?c _ = Ok _ =>
      unfold match_some in H; destruct (some_loop c "" text) as [? ?];
      match type of H with context [?a =? ""] => destruct (a =? "") end;
      [discriminate | now injection H as <- _]
  | match_words ?text ?l _ = Ok _ =>
      unfold match_words in H; destruct (words_loop l "" text) as [? ?];
      match type of H with context [?a =? ""] => destruct (a =? "") end;
      [discriminate | now injection H as <- _]
  | match_not ?text ?s _ = Ok _ =>
      unfold match_not in H; destruct (not_loop s "" text) as [? ?];
      match type of H with context [?a =? ""] => destruct (a =? "") end;
      [discriminate | now injection H as <- _]
  | match_tuple _ _ _ _ = Ok _ =>
      apply well_formed_is_allowed; exact (match_tuple_values _ IH _ _ _ _ _ H)
  | match_one_of _ _ _ _ = Ok _ =>
      apply well_formed_is_allowed; exact (match_one_of_values _ IH _ _ _ _ _ H)
  | match_many _ _ _ _ _ = Ok _ =>
      apply well_formed_is_allowed; exact (match_many_values _ IH _ _ _ _ _ _ H)
  | match_ignore _ _ _ _ = Ok _ =>
      unfold match_ignore in H; apply bind_Ok_inv in H;
      destruct H as ([? ?] & _ & H); now injection H as <- _
  | match_optional _ ?text ?q _ = Ok _ =>
      unfold match_optional in H;
      let E := fresh "E" in
      destruct (do_parse _ _ text q) as [[? ?]|[| |]|] eqn:E; try discriminate;
      [ injection H as <- _; eapply IH; exact E | now injection H as <- _ ]
  | match_indented _ _ _ _ = Ok _ =>
      unfold match_indented in H;
      repeat match type of H with
             | (if ?b then _ else _) = _ => destruct b; [|discriminate]
             | (if ?b then _ else _) = _ => destruct b; [discriminate|]
             end;
      apply bind_Ok_inv in H; destruct H as ([? ?] & _ & H);
      apply bind_Ok_inv in H;
      let E := fresh "E" in
      destruct H as ([? ?] & E & H); injection H as <- _; eapply IH; exact E
  | _ => discriminate
  end.

(** Whatever the pattern and the rules, a match is the empty list or is
    well-formed. *)
Lemma do_parse_values (funcs : nat -> func) (n : nat) :
  forall text p m rest,
    do_parse funcs n text p = Ok (m, rest) -> empty_or_well_formed m = true.
Proof.
  induction n as [|n IH]; intros text p m rest H; [discriminate|].
  destruct p; simpl in H; try (values_after_dispatch IH H; fail).
  destruct (call (funcs f)); values_after_dispatch IH H.
Qed.

(** X9.  No list of one element appears in a match, at any depth: whatever
    the pattern, the rules and the text, a match is the empty list or a
    value all of whose lists have two elements or more. *)
Theorem do_parse_match_well_formed (funcs : nat -> func) (fuel : nat) (text : string)
  (p : pattern) (m : value) (rest : string) :
  do_parse funcs fuel text p = Ok (m, rest) ->
  m = VList [] \/ well_formed m = true.
Proof.
  intros H. apply do_parse_values in H.
  destruct m as [s|[|x l]]; [right | left | right]; auto.
Qed.

Lemma do_parse_match_well_formed_witness :
  VList [VStr "a"; VStr "aa"] = VList []
  \/ well_formed (VList [VStr "a"; VStr "aa"]) = true.
Proof.
  apply (do_parse_match_well_formed no_rules 2 "aaa" (Many [Str "a"; Str "aa"]) _ "").
  reflexivity.
Defined.

(** ** Tuples *)

Lemma tuple_loop_app (parse : string -> pattern -> outcome parsed)
  (ps1 ps2 : list pattern) (result : list value) (rest : string) :
  tuple_loop parse (ps1 ++ ps2) result rest =
    ('(result1, rest1) <- tuple_loop parse ps1 result rest ;;
     tuple_loop parse ps2 result1 rest1).
Proof.
  revert result rest. induction ps1 as [|p ps1 IH]; intros result rest; simpl;
    [reflexivity|].
  destruct (parse rest p) as [[m r1]|e|]; simpl; [|reflexivity|reflexivity].
  destruct (truthy m); apply IH.
Qed.

(** X10.  When the sub-patterns of a tuple all match and one of them at
    least leaves a non-empty match, the tuple succeeds (its index accesses
    are within bounds) with a pair of its name and a value; and when two or
    more leave a non-empty match, the value is the list of these matches as
    the sub-patterns returned them, labels included. *)
Theorem match_tuple_succeeds_on_nonempty (funcs : nat -> func) (fuel : nat)
  (text : string) (ps : list pattern) (result : list value) (rest : string) :
  tuple_loop (do_parse funcs fuel) ps [] text = Ok (result, rest) ->
  result <> [] ->
  exists v,
    do_parse funcs (S fuel) text (Tuple ps) = Ok (VList [VStr ""; v], rest)
    /\ (2 <= List.length result -> v = VList result).
Proof.
  intros L N.
  destruct (match_tuple_value _ (do_parse_values funcs fuel) text ps "" _ _ L N)
    as (v & E & _ & K).
  exists v. split; [exact E | exact K].
Qed.

Lemma match_tuple_succeeds_on_nonempty_witness :
  exists v,
    do_parse no_rules 3 "a b" (Tuple [Str "a"; Ignore (Str " "); Str "b"])
      = Ok (VList [VStr ""; v], "")
    /\ (2 <= List.length [VList [VStr ""; VStr "a"]; VList [VStr ""; VStr "b"]] ->
        v = VList [VList [VStr ""; VStr "a"]; VList [VStr ""; VStr "b"]]).
Proof.
  apply (match_tuple_succeeds_on_nonempty no_rules 2 "a b"
           [Str "a"; Ignore (Str " "); Str "b"]).
  - reflexivity.
  - discriminate.
Defined.

(** X11.  A tuple stops at the first sub-pattern that raises: when the
    sub-patterns before it have matched, the exception of that sub-pattern
    is the outcome of the tuple, whatever was matched before and whatever
    sub-patterns follow. *)
Theorem match_tuple_stops_at_first_failure (funcs : nat -> func) (fuel : nat)
  (text : string) (pre post : list pattern) (p : pattern)
  (result : list value) (rest : string) (e : exn) :
  tuple_loop (do_parse funcs fuel) pre [] text = Ok (result, rest) ->
  do_parse funcs fuel rest p = Raise e ->
  do_parse funcs (S fuel) text (Tuple (pre ++ p :: post)) = Raise e.
Proof.
  intros L E. simpl. unfold match_tuple.
  rewrite tuple_loop_app, L. simpl. now rewrite E.
Qed.

Lemma match_tuple_stops_at_first_failure_witness :
  do_parse no_rules 2 "abc" (Tuple ([Str "a"; Str "b"] ++ Str "x" :: [Str "c"]))
  = Raise NoPatternFound.
Proof.
  apply (match_tuple_stops_at_first_failure no_rules 1 "abc" [Str "a"; Str "b"]
           [Str "c"] (Str "x") [VList [VStr ""; VStr "a"]; VList [VStr ""; VStr "b"]] "c");
    reflexivity.
Defined.

(** ** Index accesses outside tuples *)

Section NoIndexError.

Variable parse : string -> pattern -> outcome parsed.
Hypothesis parse_values :
  forall text p m rest, parse text p = Ok (m, rest) -> empty_or_well_formed m = true.

Lemma match_one_of_no_IndexError (text : string) (options : list pattern)
  (name : string) :
  Forall (fun q => forall text, parse text q <> Raise IndexError) options ->
  match_one_of parse text options name <> Raise IndexError.
Proof.
  induction 1 as [|p options Hp _ IH]; simpl; [discriminate|].
  specialize (Hp text).
  destruct (parse text p) as [[m0 r0]|e|] eqn:E; [| |discriminate].
  - destruct (truthy m0) eqn:T; [|exact IH].
    destruct (one_of_return_well_formed m0 r0) as (v & R & _); auto.
    { apply truthy_well_formed; eauto. }
    rewrite T in R. rewrite R. discriminate.
  - destruct e; [exact IH | discriminate | congruence].
Qed.

Lemma many_for_no_IndexError (options : list pattern) :
  Forall (fun q => forall text, parse text q <> Raise IndexError) options ->
  forall st, many_for parse options st <> Raise IndexError.
Proof.
  induction 1 as [|p options Hp _ IH]; intros st; simpl; [discriminate|].
  specialize (Hp (st_rest st)).
  destruct (parse (st_rest st) p) as [[m0 r0]|e|] eqn:E; [| |discriminate].
  - destruct (truthy m0) eqn:T; [|apply IH].
    destruct (many_unlabel_well_formed m0) as (v & U & _); auto.
    { apply truthy_well_formed; eauto. }
    rewrite U. simpl. apply IH.
  - destruct e; [apply IH | discriminate | congruence].
Qed.

Lemma many_while_no_IndexError (options : list pattern) :
  Forall (fun q => forall text, parse text q <> Raise IndexError) options ->
  forall fuel result rest, many_while parse fuel options result rest <> Raise IndexError.
Proof.
  intros F. induction fuel as [|fuel IH]; intros result rest; simpl;
    destruct (rest =? ""); try discriminate.
  pose proof (many_for_no_IndexError options F
                {| st_result := result; st_rest := rest; st_match_made := false |}) as N.
  destruct (many_for parse options _) as [st|e|]; simpl; [|congruence|discriminate].
  destruct (st_match_made st); simpl; [apply IH | discriminate].
Qed.

Lemma match_many_no_IndexError (fuel : nat) (text : string) (options : list pattern)
  (name : string) :
  Forall (fun q => forall text, parse text q <> Raise IndexError) options ->
  match_many parse fuel text options name <> Raise IndexError.
Proof.
  intros F. unfold match_many.
  pose proof (many_while_no_IndexError options F fuel [] text) as N.
  destruct (many_while parse fuel options [] text) as [[result rest]|e|]; simpl;
    [|congruence|discriminate].
  destruct result as [|x [|y result]]; simpl; try discriminate;
    destruct (negb (name =? "")); discriminate.
Qed.

Lemma match_indented_no_IndexError (text : string) (p : pattern) (name : string) :
  (forall text, parse text p <> Raise IndexError) ->
  match_indented parse text p name <> Raise IndexError.
Proof.
  intros Hp. unfold match_indented.
  destruct (startswith text nl); [|discriminate].
  destruct (indent_loop (drop 1 text) "" =? ""); [discriminate|].
  destruct (indented_loop_spec (indent_loop (drop 1 text) "")
              (split_lines (drop 1 text)) []) as (block & others & _ & _ & _ & E).
  rewrite E. cbn [bind]. specialize (Hp (nl ++ join nl ([] ++ map
    (drop (String.length (indent_loop (drop 1 text) ""))) block)%list)).
  destruct (parse _ p) as [[m r]|e|]; simpl; [discriminate | congruence | discriminate].
Qed.

End NoIndexError.

(** A property of the tuple-free patterns holds of the sub-patterns of a
    tuple-free pattern. *)
Lemma tuple_free_members (rules : Prop) (Q : pattern -> Prop) (ps : list pattern) :
  (forall p, tuple_free p = true -> rule_free p = true \/ rules -> Q p) ->
  forallb tuple_free ps = true ->
  forallb rule_free ps = true \/ rules ->
  Forall Q ps.
Proof.
  intros HQ Hs Hr. apply Forall_forall. intros q Hq.
  apply HQ.
  - rewrite forallb_forall in Hs. now apply Hs.
  - destruct Hr as [Hr | Hr]; [left | now right].
    rewrite forallb_forall in Hr. now apply Hr.
Qed.

(** Case analysis on the pattern that [do_parse] dispatches on, for the
    proof of [do_parse_no_IndexError]. *)
Ltac no_IndexError_after_dispatch funcs n IH Hs Hr :=
  lazymatch goal with
  | |- match_text ?text ?s _ <> _ =>
      unfold match_text; destruct (startswith text s); discriminate
  | |- match_some ?text ?c _ <> _ =>
      unfold match_some; destruct (some_loop c "" text) as [? ?];
      match goal with |- context [?a =? ""] => destruct (a =? "") end; discriminate
  | |- match_words ?text ?l _ <> _ =>
      unfold match_words; destruct (words_loop l "" text) as [? ?];
      match goal with |- context [?a =? ""] => destruct (a =? "") end; discriminate
  | |- match_not ?text ?s _ <> _ =>
      unfold match_not; destruct (not_loop s "" text) as [? ?];
      match goal with |- context [?a =? ""] => destruct (a =? "") end; discriminate
  | |- match_tuple _ _ _ _ <> _ => discriminate Hs
  | |- match_one_of _ _ ?ps _ <> _ =>
      apply (match_one_of_no_IndexError _ (do_parse_values funcs n));
      apply (tuple_free_members _ _ ps (fun q A B text => IH q A B text) Hs);
      first [exact Hr | right; exact Hr]
  | |- match_many _ _ _ ?ps _ <> _ =>
      apply (match_many_no_IndexError _ (do_parse_values funcs n));
      apply (tuple_free_members _ _ ps (fun q A B text => IH q A B text) Hs);
      first [exact Hr | right; exact Hr]
  | |- match_ignore _ ?text ?q _ <> _ =>
      unfold match_ignore;
      let N := fresh "N" in
      assert (N := IH q Hs ltac:(first [exact Hr | right; exact Hr]) text);
      destruct (do_parse funcs n text q) as [[? ?]|?|]; simpl;
      [discriminate | congruence | discriminate]
  | |- match_optional _ ?text ?q _ <> _ =>
      unfold match_optional;
      let N := fresh "N" in
      assert (N := IH q Hs ltac:(first [exact Hr | right; exact Hr]) text);
      destruct (do_parse funcs n text q) as [[? ?]|[| |]|]; simpl;
      first [discriminate | congruence]
  | |- match_indented _ _ ?q _ <> _ =>
      apply match_indented_no_IndexError;
      exact (IH q Hs ltac:(first [exact Hr | right; exact Hr]))
  | |- _ => discriminate
  end.

Lemma do_parse_no_IndexError (funcs : nat -> func) (n : nat) (p : pattern) :
  tuple_free p = true ->
  rule_free p = true \/ (forall f, tuple_free (call (funcs f)) = true) ->
  forall text, do_parse funcs n text p <> Raise IndexError.
Proof.
  revert p. induction n as [|n IH]; intros p Hs Hr text; [discriminate|].
  destruct p; simpl in *;
    try (no_IndexError_after_dispatch funcs n IH Hs Hr; fail).
  destruct Hr as [Hr | Hr]; [discriminate|].
  specialize (Hr f) as Hs'.
  destruct (call (funcs f)) as [s|ps|c|l|q|ps|ps|s|q|q|g|]; simpl in Hs';
    no_IndexError_after_dispatch funcs n IH Hs' Hr.
Qed.

(** X12.  Outside tuples every index access is within bounds: a pattern in
    which no tuple occurs never raises [IndexError], whatever the text.  The
    pattern holds no callable, or no rule of the grammar holds a tuple
    either. *)
Theorem do_parse_IndexError_needs_tuple (funcs : nat -> func) (fuel : nat)
  (text : string) (p : pattern) :
  tuple_free p = true ->
  rule_free p = true \/ (forall f, tuple_free (call (funcs f)) = true) ->
  do_parse funcs fuel text p <> Raise IndexError
  /\ parse_string funcs fuel text p <> Raise IndexError.
Proof.
  intros Hs Hr. pose proof (do_parse_no_IndexError funcs fuel p Hs Hr text) as N.
  split; [exact N|]. unfold parse_string.
  destruct (do_parse funcs fuel text p) as [[m r]|e|]; simpl;
    [discriminate | congruence | discriminate].
Qed.

Lemma do_parse_IndexError_needs_tuple_witness :
  do_parse no_rules 3 "" (Many [OneOf [Ignore (Str "a")]; Optional (Not "")])
    <> Raise IndexError
  /\ parse_string no_rules 3 "" (Many [OneOf [Ignore (Str "a")]; Optional (Not "")])
    <> Raise IndexError.
Proof.
  apply do_parse_IndexError_needs_tuple; [reflexivity | left; reflexivity].
Defined.

(** ** Indented blocks *)

(** X13.  When [Indented] matches, the rest is never empty.  With [indent]
    the run of spaces after the leading newline, [block] the longest run of
    leading lines that start with [indent] and [others] the lines after it,
    the inner pattern has matched the dedented block with the same match and
    some rest, and the rest of [Indented] is that inner rest, a newline, and
    [others] joined by newlines: a newline is left even when the block was
    the whole text and the inner pattern consumed all of it. *)
Theorem match_indented_rest_keeps_newline (funcs : nat -> func) (fuel : nat)
  (text : string) (p : pattern) (m : value) (rest : string) :
  do_parse funcs (S fuel) text (Indented p) = Ok (m, rest) ->
  rest <> ""
  /\ exists indent tail block others indented_rest,
      text = nl ++ indent ++ tail
      /\ indent <> "" /\ all_spaces indent = true /\ startswith tail " " = false
      /\ split_lines (indent ++ tail) = (block ++ others)%list
      /\ Forall (fun line => startswith line indent = true) block
      /\ (others = [] \/
          exists line ls, others = line :: ls /\ startswith line indent = false)
      /\ do_parse funcs fuel
           (nl ++ join nl (map (drop (String.length indent)) block)) p
         = Ok (m, indented_rest)
      /\ rest = indented_rest ++ nl ++ join nl others.
Proof.
  intros H. simpl in H. unfold match_indented in H.
  destruct (startswith text nl) eqn:E; [|discriminate].
  destruct text as [|c text]; [discriminate|].
  unfold nl in E. rewrite startswith_cons, startswith_nil, andb_true_r in E.
  apply Ascii.eqb_eq in E. subst c. cbn [drop] in H. cbv zeta in H.
  destruct (indent_loop_spec text "") as (indent & tail & H1 & H2 & H3 & H4).
  simpl append in H1. rewrite H1 in H.
  destruct (indent =? "") eqn:I; [discriminate|]. apply String.eqb_neq in I.
  destruct (indented_loop_spec indent (split_lines text) [])
    as (block & others & H5 & H6 & H7 & H8).
  rewrite H8 in H. cbn [bind] in H.
  apply bind_Ok_inv in H. destruct H as ([m0 r0] & P & H). injection H as <- <-.
  split.
  - apply append_not_nil_r. unfold nl. discriminate.
  - exists indent, tail, block, others, r0. simpl app in P.
    repeat split; auto.
    + simpl. now rewrite H2.
    + now rewrite <- H2.
Qed.

Lemma match_indented_rest_keeps_newline_witness :
  nl <> ""
  /\ exists indent tail block others indented_rest,
      nl ++ "  foo" = nl ++ indent ++ tail
      /\ indent <> "" /\ all_spaces indent = true /\ startswith tail " " = false
      /\ split_lines (indent ++ tail) = (block ++ others)%list
      /\ Forall (fun line => startswith line indent = true) block
      /\ (others = [] \/
          exists line ls, others = line :: ls /\ startswith line indent = false)
      /\ do_parse no_rules 1
           (nl ++ join nl (map (drop (String.length indent)) block))
           (Str (nl ++ "foo"))
         = Ok (VList [VStr ""; VStr (nl ++ "foo")], indented_rest)
      /\ nl = indented_rest ++ nl ++ join nl others.
Proof.
  apply (match_indented_rest_keeps_newline no_rules 1 (nl ++ "  foo")
           (Str (nl ++ "foo")) (VList [VStr ""; VStr (nl ++ "foo")]) nl).
  reflexivity.
Defined.

(** ** Rules *)

Lemma match_tuple_renamed (parse : string -> pattern -> outcome parsed)
  (text : string) (ps : list pattern) (name name' : string) (v : value) (rest : string) :
  match_tuple parse text ps name = Ok (VList [VStr name; v], rest) ->
  match_tuple parse text ps name' = Ok (VList [VStr name'; v], rest).
Proof.
  unfold match_tuple. intros H.
  apply bind_Ok_inv in H. destruct H as ([result rest0] & L & H). rewrite L. cbn [bind].
  apply bind_Ok_inv in H. destruct H as (v1 & G1 & H). rewrite G1. cbn [bind].
  apply bind_Ok_inv in H. destruct H as (v2 & G2 & H). rewrite G2. cbn [bind].
  apply bind_Ok_inv in H. destruct H as (v3 & G3 & H). rewrite G3. cbn [bind].
  now injection H as -> ->.
Qed.

Lemma match_one_of_any_name (parse : string -> pattern -> outcome parsed)
  (text : string) (options : list pattern) (name name' : string) :
  match_one_of parse text options name = match_one_of parse text options name'.
Proof.
  induction options as [|p options IH]; simpl; [reflexivity|].
  now rewrite IH.
Qed.

(** X14.  A rule is resolved one level only.  A rule whose function returns
    another function raises [UnknownMatcherType]; a rule whose function is a
    lambda matches exactly as the pattern it returns. *)
Theorem rule_resolved_once (funcs : nat -> func) (fuel : nat) (text : string) (f : nat) :
  (forall g, call (funcs f) = Callable g ->
             do_parse funcs (S fuel) text (Callable f) = Raise UnknownMatcherType)
  /\ (__name__ (funcs f) = "<lambda>" ->
      (forall g, call (funcs f) <> Callable g) ->
      do_parse funcs fuel text (Callable f) = do_parse funcs fuel text (call (funcs f))).
Proof.
  split.
  - intros g E. simpl. now rewrite E.
  - intros L N. destruct fuel as [|fuel]; [reflexivity|]. simpl. rewrite L. simpl.
    destruct (call (funcs f)); try reflexivity. now contradiction (N f0).
Qed.

Lemma rule_resolved_once_witness :
  do_parse (one_rule "outer" (Callable 1)) 1 "a" (Callable 0) = Raise UnknownMatcherType
  /\ do_parse (one_rule "<lambda>" (Str "a")) 2 "ab" (Callable 0)
     = do_parse (one_rule "<lambda>" (Str "a")) 2 "ab" (Str "a").
Proof.
  split.
  - apply (proj1 (rule_resolved_once (one_rule "outer" (Callable 1)) 0 "a" 0) 1).
    reflexivity.
  - apply (proj2 (rule_resolved_once (one_rule "<lambda>" (Str "a")) 2 "ab" 0));
      [reflexivity | discriminate].
Defined.

(** X15.  What becomes of the name of a rule.  When the rule returns a
    literal, a tuple, [Some], [Words] or [Not], the match of the rule is the
    match of that pattern with the name of the rule in the place of the
    empty name.  When it returns [Ignore], [OneOf], [Optional] or
    [Indented], the name is lost: the rule matches exactly as the pattern it
    returns.  When it returns [Many], the bare match of [Many] is wrapped
    under the name. *)
Theorem rule_name_in_match (funcs : nat -> func) (fuel : nat) (text : string) (f : nat) :
  let body := call (funcs f) in
  let name := snd (get_pattern_info funcs (Callable f)) in
  (wraps_name body = true ->
   forall v rest,
     do_parse funcs fuel text body = Ok (VList [VStr ""; v], rest) ->
     do_parse funcs fuel text (Callable f) = Ok (VList [VStr name; v], rest))
  /\ (drops_name body = true ->
      do_parse funcs fuel text (Callable f) = do_parse funcs fuel text body)
  /\ (forall options v rest,
      body = Many options -> name <> "" ->
      do_parse funcs fuel text body = Ok (v, rest) ->
      do_parse funcs fuel text (Callable f) = Ok (VList [VStr name; v], rest)).
Proof.
  intros body name. subst body name. simpl snd.
  destruct fuel as [|fuel].
  { split; [|split]; intros; first [reflexivity | discriminate]. }
  simpl do_parse. set (name := if __name__ (funcs f) =? "<lambda>" then _ else _).
  split; [|split].
  - intros W v rest H. destruct (call (funcs f)); try discriminate; simpl in H.
    + unfold match_text in *. destruct (startswith text s); [|discriminate].
      now injection H as -> ->.
    + now apply match_tuple_renamed with (name := "").
    + unfold match_some in *. destruct (some_loop c "" text) as [a b].
      destruct (a =? ""); [discriminate|]. now injection H as -> ->.
    + unfold match_words in *. destruct (words_loop letters "" text) as [a b].
      destruct (a =? ""); [discriminate|]. now injection H as -> ->.
    + unfold match_not in *. destruct (not_loop s "" text) as [a b].
      destruct (a =? ""); [discriminate|]. now injection H as -> ->.
  - intros D. destruct (call (funcs f)); try discriminate; simpl; try reflexivity.
    apply match_one_of_any_name.
  - intros options v rest -> N H. simpl in H.
    destruct (match_many_Ok_inv _ _ _ _ _ _ _ H) as (result & W & R & ->).
    rewrite (match_many_after_loop _ _ _ _ name _ _ W).
    destruct result as [|x result]; [contradiction|].
    unfold many_value. apply String.eqb_neq in N. rewrite N. reflexivity.
Qed.

Lemma rule_name_in_match_witness :
  do_parse (one_rule "greeting" (Tuple [Str "hi"; Str "!"])) 2 "hi!" (Callable 0)
  = Ok (VList [VStr "greeting";
               VList [VList [VStr ""; VStr "hi"]; VList [VStr ""; VStr "!"]]], "")
  /\ do_parse (one_rule "choice" (OneOf [Str "a"])) 3 "a" (Callable 0)
     = do_parse (one_rule "choice" (OneOf [Str "a"])) 3 "a" (OneOf [Str "a"])
  /\ do_parse (one_rule "items" (Many [Str "a"; Str "b"])) 2 "ab" (Callable 0)
     = Ok (VList [VStr "items"; VList [VStr "a"; VStr "b"]], "").
Proof.
  split; [|split].
  - apply (proj1 (rule_name_in_match
                    (one_rule "greeting" (Tuple [Str "hi"; Str "!"])) 2 "hi!" 0));
      reflexivity.
  - apply (proj1 (proj2 (rule_name_in_match
                           (one_rule "choice" (OneOf [Str "a"])) 3 "a" 0))).
    reflexivity.
  - apply (proj2 (proj2 (rule_name_in_match
                           (one_rule "items" (Many [Str "a"; Str "b"])) 2 "ab" 0))
             [Str "a"; Str "b"]); [reflexivity | discriminate | reflexivity].
Defined.

(** ** Greedy matchers *)

(** X16.  [Not] stops exactly where its pattern can be matched: when it
    matches and leaves a non-empty rest, the pattern taken as a literal
    matches that rest. *)
Theorem match_not_then_literal (funcs : nat -> func) (fuel : nat) (text pat : string)
  (m : value) (rest : string) :
  do_parse funcs (S fuel) text (Not pat) = Ok (m, rest) ->
  rest <> "" ->
  do_parse funcs (S fuel) rest (Str pat)
    = Ok (VList [VStr ""; VStr pat], drop (String.length pat) rest).
Proof.
  simpl. unfold match_not, match_text. intros H N.
  destruct (not_loop_spec pat text "") as (consumed & rest' & E & _ & S & _).
  rewrite E in H. simpl in H. destruct (consumed =? ""); [discriminate|].
  injection H as _ <-. destruct S as [-> | ->]; [contradiction | reflexivity].
Qed.

Lemma match_not_then_literal_witness :
  do_parse no_rules 1 "STOPdef" (Str "STOP")
    = Ok (VList [VStr ""; VStr "STOP"], drop (String.length "STOP") "STOPdef").
Proof.
  apply (match_not_then_literal no_rules 0 "abcSTOPdef" "STOP"
           (VList [VStr ""; VStr "abc"]) "STOPdef");
    [reflexivity | discriminate].
Defined.

(** X17.  [Some], [Words] and [Not] are greedy: applied again to the rest
    they have left, they find nothing and raise [NoPatternFound]. *)
Theorem greedy_matchers_leave_nothing (funcs : nat -> func) (fuel : nat)
  (text pat : string) (m : value) (rest : string) :
  (do_parse funcs (S fuel) text (Some_ pat) = Ok (m, rest) ->
   do_parse funcs (S fuel) rest (Some_ pat) = Raise NoPatternFound)
  /\ (do_parse funcs (S fuel) text (Words pat) = Ok (m, rest) ->
      do_parse funcs (S fuel) rest (Words pat) = Raise NoPatternFound)
  /\ (do_parse funcs (S fuel) text (Not pat) = Ok (m, rest) ->
      do_parse funcs (S fuel) rest (Not pat) = Raise NoPatternFound).
Proof.
  simpl. split; [|split]; intros H.
  - unfold match_some in *.
    destruct (some_loop_spec pat text "") as (consumed & rest' & E & _ & _ & S).
    rewrite E in H. simpl in H. destruct (consumed =? ""); [discriminate|].
    injection H as _ <-. destruct S as [-> | (c & r & -> & N)]; [reflexivity|].
    cbn [some_loop]. apply String.eqb_neq in N. now rewrite N.
  - unfold match_words in *.
    destruct (words_loop_spec pat text "") as (consumed & rest' & E & _ & _ & S).
    rewrite E in H. simpl in H. destruct (consumed =? ""); [discriminate|].
    injection H as _ <-. destruct S as [-> | (c & r & -> & N)]; [reflexivity|].
    cbn [words_loop]. now rewrite N.
  - unfold match_not in *.
    destruct (not_loop_spec pat text "") as (consumed & rest' & E & _ & S & _).
    rewrite E in H. simpl in H. destruct (consumed =? ""); [discriminate|].
    injection H as _ <-. destruct S as [-> | S]; [reflexivity|].
    destruct rest' as [|c r]; [reflexivity|]. cbn [not_loop]. now rewrite S.
Qed.

Lemma greedy_matchers_leave_nothing_witness :
  do_parse no_rules 1 "b" (Some_ "a") = Raise NoPatternFound
  /\ do_parse no_rules 1 ";x" (Words "0123456789") = Raise NoPatternFound
  /\ do_parse no_rules 1 "STOPdef" (Not "STOP") = Raise NoPatternFound.
Proof.
  split; [|split].
  - apply (proj1 (greedy_matchers_leave_nothing no_rules 0 "aaab" "a"
                    (VList [VStr ""; VStr "aaa"]) "b")).
    reflexivity.
  - apply (proj1 (proj2 (greedy_matchers_leave_nothing no_rules 0 "12;x" "0123456789"
                           (VList [VStr ""; VStr "12"]) ";x"))).
    reflexivity.
  - apply (proj2 (proj2 (greedy_matchers_leave_nothing no_rules 0 "abcSTOPdef" "STOP"
                           (VList [VStr ""; VStr "abc"]) "STOPdef"))).
    reflexivity.
Defined.

(** * The engine over the store *)

Local Open Scope list_scope.

(** ** The store *)

Lemma nth_error_old (s more : store) (a : nat) (o : pyobj) :
  nth_error s a = Some o -> nth_error (s ++ more) a = Some o.
Proof.
  intros H. rewrite nth_error_app1; [exact H|].
  apply nth_error_Some. congruence.
Qed.

Lemma nth_error_first_new (s more : store) (o : pyobj) :
  nth_error (s ++ o :: more) (List.length s) = Some o.
Proof. rewrite nth_error_app2, Nat.sub_diag; [reflexivity | lia]. Qed.

Lemma set_nth_first_new (s more : store) (o o' : pyobj) :
  set_nth (s ++ o :: more) (List.length s) o' = (s ++ o' :: more).
Proof. induction s as [|x s IH]; simpl; [reflexivity | now rewrite IH]. Qed.

Lemma nth_error_other_new (s more : store) (o o' : pyobj) (a : nat) :
  a <> List.length s ->
  nth_error (s ++ o :: more) a = nth_error (s ++ o' :: more) a.
Proof.
  intros N. destruct (Nat.lt_ge_cases a (List.length s)) as [L | L].
  - now rewrite !nth_error_app1.
  - rewrite !nth_error_app2 by exact L.
    destruct (a - List.length s) eqn:E; [lia | reflexivity].
Qed.

(** ** Patterns in the store *)

(** A pattern of the store is the same pattern after objects are added. *)
Lemma repr_grows (s more : store) (v : pyval) (p : pattern) :
  repr s v p -> repr (s ++ more) v p.
Proof.
  revert v p.
  apply (repr_mut s (fun v p => repr (s ++ more) v p)
           (fun items ps => repr_all (s ++ more) items ps));
    intros; econstructor; eauto using nth_error_old.
Qed.

Lemma repr_all_grows (s more : store) (items : list pyval) (ps : list pattern) :
  repr_all s items ps -> repr_all (s ++ more) items ps.
Proof.
  induction 1; constructor; auto using repr_grows.
Qed.

(** ** Matches in the store *)

(** A match is the same match in a store that has kept its lists. *)
Lemma reads_kept (lo : nat) (s s' : store) (r : pyval) (m : value) :
  (forall a o, lo <= a -> nth_error s a = Some o -> nth_error s' a = Some o) ->
  reads lo s r m -> reads lo s' r m.
Proof.
  intros K. revert r m.
  apply (reads_mut lo s (fun r m => reads lo s' r m)
           (fun items xs => reads_all lo s' items xs));
    intros; econstructor; eauto.
Qed.

Lemma reads_all_kept (lo : nat) (s s' : store) (items : list pyval) (xs : list value) :
  (forall a o, lo <= a -> nth_error s a = Some o -> nth_error s' a = Some o) ->
  reads_all lo s items xs -> reads_all lo s' items xs.
Proof.
  intros K. induction 1; constructor; eauto using reads_kept.
Qed.

Lemma reads_lower (lo lo' : nat) (s : store) (r : pyval) (m : value) :
  lo' <= lo -> reads lo s r m -> reads lo' s r m.
Proof.
  intros L. revert r m.
  apply (reads_mut lo s (fun r m => reads lo' s r m)
           (fun items xs => reads_all lo' s items xs));
    intros; econstructor; eauto. lia.
Qed.

Lemma reads_all_lower (lo lo' : nat) (s : store) (items : list pyval) (xs : list value) :
  lo' <= lo -> reads_all lo s items xs -> reads_all lo' s items xs.
Proof.
  intros L. induction 1; constructor; eauto using reads_lower.
Qed.

Lemma reads_grows (lo : nat) (s more : store) (r : pyval) (m : value) :
  reads lo s r m -> reads lo (s ++ more) r m.
Proof. apply reads_kept. intros a o _. apply nth_error_old. Qed.

Lemma reads_all_grows (lo : nat) (s more : store) (items : list pyval)
  (xs : list value) :
  reads_all lo s items xs -> reads_all lo (s ++ more) items xs.
Proof. apply reads_all_kept. intros a o _. apply nth_error_old. Qed.

Lemma reads_all_app (lo : nat) (s : store) (items items' : list pyval)
  (xs xs' : list value) :
  reads_all lo s items xs -> reads_all lo s items' xs' ->
  reads_all lo s (items ++ items') (xs ++ xs').
Proof. induction 1; simpl; auto. intros. constructor; auto. Qed.

Lemma reads_all_length (lo : nat) (s : store) (items : list pyval) (xs : list value) :
  reads_all lo s items xs -> List.length items = List.length xs.
Proof. induction 1; simpl; auto. Qed.

Lemma reads_all_nth (lo : nat) (s : store) (items : list pyval) (xs : list value)
  (i : nat) :
  reads_all lo s items xs ->
  match nth_error xs i with
  | Some x => exists r, nth_error items i = Some r /\ reads lo s r x
  | None => nth_error items i = None
  end.
Proof.
  intros H. revert i. induction H as [|r m items xs R _ IH]; intros [|i]; simpl;
    try reflexivity.
  - exists r. split; [reflexivity | exact R].
  - apply IH.
Qed.

(** The operations on values agree with those on matches. *)
Lemma is_true_reads (lo : nat) (s : store) (r : pyval) (m : value) :
  reads lo s r m -> is_true r s = Done (truthy m) s.
Proof.
  destruct 1 as [str | a items xs L N A]; [reflexivity|].
  unfold is_true, run_bind, deref. rewrite N. destruct A; reflexivity.
Qed.

Lemma py_len_reads (lo : nat) (s : store) (a : nat) (items : list pyval)
  (xs : list value) :
  nth_error s a = Some (PyList items) -> reads_all lo s items xs ->
  py_len (PyRef a) s = Done (List.length xs) s.
Proof.
  intros N A. unfold py_len, run_bind, deref. rewrite N.
  now rewrite (reads_all_length _ _ _ _ A).
Qed.

Lemma py_getitem_reads (lo : nat) (s : store) (r : pyval) (m : value) (i : nat) :
  reads lo s r m ->
  match getitem m i with
  | Ok x => exists rx, py_getitem r i s = Done rx s /\ reads lo s rx x
  | Raise e => py_getitem r i s = Raised e s
  | Diverge => False
  end.
Proof.
  destruct 1 as [str | a items xs L N A]; simpl.
  - destruct (String.get i str); [|reflexivity].
    eexists. split; [reflexivity | constructor].
  - unfold run_bind, deref. rewrite N. unfold item_of.
    pose proof (reads_all_nth _ _ _ _ i A) as H.
    destruct (nth_error xs i) as [x|].
    + destruct H as (rx & E & R). rewrite E. eauto.
    + now rewrite H.
Qed.

Lemma py_eq_str_reads (lo : nat) (s : store) (r : pyval) (m : value) (str : string) :
  reads lo s r m -> py_eq_str r str = eq_str m str.
Proof. now destruct 1. Qed.

Lemma run_many_unlabel_reads (lo : nat) (s : store) (r : pyval) (m : value) :
  reads lo s r m ->
  match many_unlabel m with
  | Ok x => exists rx, run_many_unlabel r s = Done rx s /\ reads lo s rx x
  | Raise e => run_many_unlabel r s = Raised e s
  | Diverge => False
  end.
Proof.
  intros R. unfold many_unlabel.
  pose proof (py_getitem_reads _ _ _ _ 0 R) as H0.
  destruct (getitem m 0) as [m0|e|]; simpl; [| |contradiction].
  - destruct H0 as (r0 & E0 & R0).
    assert (E : run_many_unlabel r s =
                if negb (truthy m0) || eq_str m0 "<lambda>"
                then py_getitem r 1 s else Done r s).
    { unfold run_many_unlabel, run_bind. rewrite E0, (is_true_reads _ _ _ _ R0).
      rewrite (py_eq_str_reads _ _ _ _ "<lambda>" R0).
      now destruct (negb (truthy m0) || eq_str m0 "<lambda>"). }
    rewrite E. destruct (negb (truthy m0) || eq_str m0 "<lambda>").
    + apply (py_getitem_reads _ _ _ _ 1 R).
    + eauto.
  - unfold run_many_unlabel, run_bind. now rewrite H0.
Qed.

(** ** Runs that end alike *)

Lemma same_value_getitem (lo : nat) (s : store) (r : pyval) (m : value) (i : nat) :
  reads lo s r m -> same_value lo s (getitem m i) (py_getitem r i s).
Proof. intros R. exact (py_getitem_reads lo s r m i R). Qed.

Lemma same_value_unlabel (lo : nat) (s : store) (r : pyval) (m : value) :
  reads lo s r m -> same_value lo s (many_unlabel m) (run_many_unlabel r s).
Proof. intros R. exact (run_many_unlabel_reads lo s r m R). Qed.

Lemma same_value_Ok (lo : nat) (s : store) (r : pyval) (m : value) :
  reads lo s r m -> same_value lo s (Ok m) (ret r s).
Proof. intros R. exists r. split; [reflexivity | exact R]. Qed.

(** One step of a run: an operation on a value, then the rest. *)
Lemma step_value {B B' : Type} (Q : outcome B -> run B' -> Prop) (lo : nat)
  (s : store) (o : outcome value) (m : M pyval) (k : value -> outcome B)
  (k' : pyval -> M B') :
  same_value lo s o (m s) ->
  (forall x v, reads lo s v x -> Q (k x) (k' v s)) ->
  (forall e, Q (Raise e) (Raised e s)) ->
  Q (bind o k) (run_bind m k' s).
Proof.
  intros H K E. unfold bind, run_bind. destruct o as [x|e|]; simpl in H.
  - destruct H as (v & -> & R). now apply K.
  - rewrite H. apply E.
  - contradiction.
Qed.

Lemma ends_in_base (lo : nat) (s more0 : store) (o : outcome parsed)
  (r : run (pyval * string)) :
  ends_in lo (s ++ more0) o r -> ends_in lo s o r.
Proof.
  destruct o as [[m rest]|e|]; simpl; [| |auto].
  - intros (v & more & -> & R). exists v, (more0 ++ more).
    rewrite app_assoc. auto.
  - intros (more & ->). exists (more0 ++ more). now rewrite app_assoc.
Qed.

Lemma ends_in_lower (lo lo' : nat) (s : store) (o : outcome parsed)
  (r : run (pyval * string)) :
  lo' <= lo -> ends_in lo s o r -> ends_in lo' s o r.
Proof.
  intros L. destruct o as [[m rest]|e|]; simpl; auto.
  intros (v & more & -> & R). exists v, more. eauto using reads_lower.
Qed.

Lemma ends_in_Raise (lo : nat) (s : store) (e : exn) :
  ends_in lo s (Raise e) (Raised e s).
Proof. exists []. now rewrite app_nil_r. Qed.

(** A new pair of a name and a value is the pair of the name and the
    match. *)
Lemma reads_new_pair (lo : nat) (s : store) (name : string) (v : pyval) (x : value) :
  lo <= List.length s -> reads lo s v x ->
  reads lo (s ++ [PyList [PyStr name; v]]) (PyRef (List.length s))
    (VList [VStr name; x]).
Proof.
  intros L R. econstructor; [exact L | apply nth_error_first_new |].
  repeat constructor. now apply reads_grows.
Qed.

Lemma ends_in_new_pair (lo : nat) (s : store) (name : string) (v : pyval) (x : value)
  (rest : string) :
  lo <= List.length s -> reads lo s v x ->
  ends_in lo s (Ok (VList [VStr name; x], rest))
    ((r <~ alloc (PyList [PyStr name; v]) ;; ret (r, rest)) s).
Proof.
  intros L R. exists (PyRef (List.length s)), [PyList [PyStr name; v]].
  split; [reflexivity | now apply reads_new_pair].
Qed.

Lemma ends_in_new_empty (lo : nat) (s : store) (rest : string) :
  lo <= List.length s ->
  ends_in lo s (Ok (VList [], rest)) ((r <~ alloc (PyList []) ;; ret (r, rest)) s).
Proof.
  intros L. exists (PyRef (List.length s)), [PyList []].
  split; [reflexivity|].
  econstructor; [exact L | apply nth_error_first_new | constructor].
Qed.

Lemma get_attr_instance (s : store) (a : nat) (c : matcher_class) (attr : pyval) :
  nth_error s a = Some (PyInst c attr) -> get_attr (PyRef a) s = Done attr s.
Proof. intros H. unfold get_attr, run_bind, deref. now rewrite H. Qed.

(** ** The matchers without sub-patterns *)

Lemma run_match_text_alike (s : store) (text pat name : string) :
  ends_alike s (match_text text pat name) (run_match_text text pat name s).
Proof.
  unfold ends_alike, match_text, run_match_text.
  destruct (startswith text pat); [|apply ends_in_Raise].
  apply ends_in_new_pair; [lia | constructor].
Qed.

Lemma run_match_some_alike (s : store) (a : nat) (text c name : string) :
  nth_error s a = Some (PyInst cSome (PyStr c)) ->
  ends_alike s (match_some text c name) (run_match_some text (PyRef a) name s).
Proof.
  intros H. unfold ends_alike, match_some, run_match_some, run_bind at 1.
  rewrite (get_attr_instance _ _ _ _ H).
  destruct (some_loop c "" text) as [matched rest].
  destruct (matched =? "")%string; [apply ends_in_Raise|].
  apply ends_in_new_pair; [lia | constructor].
Qed.

Lemma run_match_words_alike (s : store) (a : nat) (text letters name : string) :
  nth_error s a = Some (PyInst cWords (PyStr letters)) ->
  ends_alike s (match_words text letters name)
    (run_match_words text (PyRef a) name s).
Proof.
  intros H. unfold ends_alike, match_words, run_match_words, run_bind at 1.
  rewrite (get_attr_instance _ _ _ _ H).
  destruct (words_loop letters "" text) as [matched rest].
  destruct (matched =? "")%string; [apply ends_in_Raise|].
  apply ends_in_new_pair; [lia | constructor].
Qed.

Lemma run_match_not_alike (s : store) (a : nat) (text forbidden name : string) :
  nth_error s a = Some (PyInst cNot (PyStr forbidden)) ->
  ends_alike s (match_not text forbidden name) (run_match_not text (PyRef a) name s).
Proof.
  intros H. unfold ends_alike, match_not, run_match_not, run_bind at 1.
  rewrite (get_attr_instance _ _ _ _ H).
  destruct (not_loop forbidden "" text) as [matched rest].
  destruct (matched =? "")%string; [apply ends_in_Raise|].
  apply ends_in_new_pair; [lia | constructor].
Qed.

(** ** The matchers with sub-patterns *)

(** The lists above the list of results are kept when that list is updated
    and objects are added. *)
Lemma kept_above_result (s0 more more1 : store) (o o' : pyobj) (a : nat) (x : pyobj) :
  S (List.length s0) <= a ->
  nth_error (s0 ++ o :: more) a = Some x ->
  nth_error (s0 ++ o' :: (more ++ more1)) a = Some x.
Proof.
  intros L H.
  rewrite (nth_error_other_new s0 (more ++ more1) o' o) by lia.
  change (s0 ++ o :: more ++ more1) with (s0 ++ (o :: more) ++ more1).
  rewrite app_assoc. now apply nth_error_old.
Qed.

Lemma store_with_result_app (s0 more more1 : store) (o : pyobj) :
  (s0 ++ o :: more) ++ more1 = s0 ++ o :: (more ++ more1).
Proof. now rewrite <- app_assoc. Qed.

Lemma list_append_result (s0 more : store) (items : list pyval) (v : pyval) :
  list_append (PyRef (List.length s0)) v (s0 ++ PyList items :: more)
  = Done tt (s0 ++ PyList (items ++ [v]) :: more).
Proof.
  unfold list_append. now rewrite nth_error_first_new, set_nth_first_new.
Qed.

(** The matches of the list of results, after a sub-pattern has run and its
    match has or has not been appended. *)
Lemma results_after_append (s0 more more1 : store) (items : list pyval)
  (xs : list value) (v : pyval) (m : value) :
  reads_all (S (List.length s0)) (s0 ++ PyList items :: more) items xs ->
  reads (List.length (s0 ++ PyList items :: more))
    ((s0 ++ PyList items :: more) ++ more1) v m ->
  reads_all (S (List.length s0)) (s0 ++ PyList (items ++ [v]) :: (more ++ more1))
    (items ++ [v]) (xs ++ [m]).
Proof.
  intros A R. apply reads_all_app.
  - eapply reads_all_kept; [|exact A]. intros a o L. now apply kept_above_result.
  - constructor; [|constructor].
    apply (reads_lower _ (S (List.length s0))) in R;
      [|rewrite length_app; simpl; lia].
    rewrite store_with_result_app in R.
    eapply reads_kept; [|exact R]. intros a o L H.
    now rewrite (nth_error_other_new s0 _ (PyList (items ++ [v])) (PyList items)) by lia.
Qed.

Lemma results_after_skip (s0 more more1 : store) (items : list pyval)
  (xs : list value) :
  reads_all (S (List.length s0)) (s0 ++ PyList items :: more) items xs ->
  reads_all (S (List.length s0)) (s0 ++ PyList items :: (more ++ more1)) items xs.
Proof.
  intros A. eapply reads_all_kept; [|exact A]. intros a o L.
  now apply kept_above_result.
Qed.

Section Simulation.

Variable parse : string -> pattern -> outcome parsed.
Variable run_parse : string -> pyval -> M (pyval * string).
Hypothesis parse_simulated : simulates parse run_parse.

(** A sub-pattern run in a store that holds the list of results. *)
Lemma sub_pattern_alike (s0 more : store) (o : pyobj) (text : string)
  (v : pyval) (p : pattern) :
  repr s0 v p ->
  ends_alike (s0 ++ o :: more) (parse text p) (run_parse text v (s0 ++ o :: more)).
Proof. intros R. apply parse_simulated. now apply repr_grows. Qed.

Lemma run_tuple_loop_alike (s0 : store) (items : list pyval) (ps : list pattern) :
  repr_all s0 items ps ->
  forall more ritems result rest,
    reads_all (S (List.length s0)) (s0 ++ PyList ritems :: more) ritems result ->
    results_alike s0 (tuple_loop parse ps result rest)
      (run_tuple_loop run_parse items (PyRef (List.length s0)) rest
         (s0 ++ PyList ritems :: more)).
Proof.
  induction 1 as [|v p items ps Rv _ IH]; intros more ritems result rest A.
  - simpl. eauto.
  - pose proof (sub_pattern_alike s0 more (PyList ritems) rest v p Rv) as H.
    cbn [tuple_loop run_tuple_loop]. unfold ends_alike, ends_in in H.
    unfold bind at 1. unfold run_bind at 1.
    destruct (parse rest p) as [[m r1]|e|].
    + destruct H as (rv & more1 & -> & R).
      unfold run_bind at 1. rewrite (is_true_reads _ _ _ _ R).
      destruct (truthy m).
      * unfold run_bind at 1.
        rewrite store_with_result_app, list_append_result.
        apply IH. now apply results_after_append.
      * unfold run_bind at 1. unfold ret at 1.
        rewrite store_with_result_app.
        apply IH. now apply results_after_skip.
    + destruct H as (more1 & ->). rewrite store_with_result_app.
      simpl. eauto.
    + now rewrite H.
Qed.

(** The end of [match_tuple], once its loop has run. *)
Lemma tuple_finish_alike (lo : nat) (s : store) (a : nat) (items : list pyval)
  (result : list value) (name rest : string) :
  lo <= a -> a < List.length s ->
  nth_error s a = Some (PyList items) -> reads_all lo s items result ->
  ends_in lo s
    (result <- (if Nat.eqb (List.length result) 1 then getitem (VList result) 0
                else Ok (VList result)) ;;
     r0 <- getitem result 0 ;;
     result <- (if negb (truthy r0) then getitem result 1 else Ok result) ;;
     Ok (VList [VStr name; result], rest))
    ((n <~ py_len (PyRef a) ;;
      result <~ (if Nat.eqb n 1 then py_getitem (PyRef a) 0 else ret (PyRef a)) ;;
      r0 <~ py_getitem result 0 ;;
      t <~ is_true r0 ;;
      result <~ (if negb t then py_getitem result 1 else ret result) ;;
      r <~ alloc (PyList [PyStr name; result]) ;;
      ret (r, rest)) s).
Proof.
  intros L La N A.
  assert (R : reads lo s (PyRef a) (VList result)) by (econstructor; eauto).
  unfold run_bind at 1. rewrite (py_len_reads _ _ _ _ _ N A).
  apply (step_value (ends_in lo s) lo s).
  { destruct (Nat.eqb (List.length result) 1);
      [now apply same_value_getitem | now apply same_value_Ok]. }
  2: { intros e. apply ends_in_Raise. }
  intros x1 v1 R1.
  apply (step_value (ends_in lo s) lo s); [now apply same_value_getitem| |].
  2: { intros e. apply ends_in_Raise. }
  intros x2 v2 R2. unfold run_bind at 1. rewrite (is_true_reads _ _ _ _ R2).
  apply (step_value (ends_in lo s) lo s).
  { destruct (negb (truthy x2));
      [now apply same_value_getitem | now apply same_value_Ok]. }
  2: { intros e. apply ends_in_Raise. }
  intros x3 v3 R3. apply ends_in_new_pair; [lia | exact R3].
Qed.

Lemma run_match_tuple_alike (s : store) (text : string) (items : list pyval)
  (ps : list pattern) (name : string) :
  repr_all s items ps ->
  ends_alike s (match_tuple parse text ps name)
    (run_match_tuple run_parse text items name s).
Proof.
  intros Rp. unfold ends_alike, match_tuple, run_match_tuple.
  unfold run_bind at 1. unfold alloc at 1.
  pose proof (run_tuple_loop_alike s items ps Rp [] [] [] text
                (reads_nil _ _)) as H.
  unfold results_alike in H. simpl app in H.
  unfold bind at 1. unfold run_bind at 1.
  destruct (tuple_loop parse ps [] text) as [[result rest]|e|].
  - destruct H as (more' & ritems' & -> & A).
    apply ends_in_base with (more0 := PyList ritems' :: more').
    apply (tuple_finish_alike _ _ _ ritems').
    + lia.
    + rewrite length_app. simpl. lia.
    + apply nth_error_first_new.
    + eapply reads_all_lower; [|exact A]. lia.
  - destruct H as (more' & ritems' & ->). now exists (PyList ritems' :: more').
  - now rewrite H.
Qed.

Lemma run_match_ignore_alike (s : store) (a : nat) (text : string) (v : pyval)
  (p : pattern) (name : string) :
  nth_error s a = Some (PyInst cIgnore v) -> repr s v p ->
  ends_alike s (match_ignore parse text p name)
    (run_match_ignore run_parse text (PyRef a) name s).
Proof.
  intros N R. unfold ends_alike, match_ignore, run_match_ignore.
  unfold run_bind at 1. rewrite (get_attr_instance _ _ _ _ N).
  pose proof (parse_simulated text v p s R) as H. unfold ends_alike, ends_in in H.
  unfold bind, run_bind at 1.
  destruct (parse text p) as [[m rest]|e|].
  - destruct H as (rv & more & -> & _).
    apply ends_in_base with (more0 := more).
    apply ends_in_new_empty. rewrite length_app. lia.
  - destruct H as (more & ->). now exists more.
  - now rewrite H.
Qed.

Lemma run_match_optional_alike (s : store) (a : nat) (text : string) (v : pyval)
  (p : pattern) (name : string) :
  nth_error s a = Some (PyInst cOptional v) -> repr s v p ->
  ends_alike s (match_optional parse text p name)
    (run_match_optional run_parse text (PyRef a) name s).
Proof.
  intros N R. unfold ends_alike, match_optional, run_match_optional.
  unfold run_bind at 1. rewrite (get_attr_instance _ _ _ _ N).
  pose proof (parse_simulated text v p s R) as H. unfold ends_alike, ends_in in H.
  unfold try_except.
  destruct (parse text p) as [[m rest]|e|].
  - destruct H as (rv & more & -> & Rm). now exists rv, more.
  - destruct H as (more & ->). destruct e; try (now exists more).
    apply ends_in_base with (more0 := more).
    apply ends_in_new_empty. rewrite length_app. lia.
  - now rewrite H.
Qed.

Lemma run_match_indented_alike (s : store) (a : nat) (text : string) (v : pyval)
  (p : pattern) (name : string) :
  nth_error s a = Some (PyInst cIndented v) -> repr s v p ->
  ends_alike s (match_indented parse text p name)
    (run_match_indented run_parse text (PyRef a) name s).
Proof.
  intros N R. unfold ends_alike, match_indented, run_match_indented.
  destruct (startswith text nl); [|apply ends_in_Raise].
  destruct (indent_loop (drop 1 text) "" =? "")%string; [apply ends_in_Raise|].
  unfold bind at 1. unfold run_bind at 1. unfold lift.
  destruct (indented_loop _ _ _ _) as [[others block]|e|];
    [|apply ends_in_Raise|reflexivity].
  unfold run_bind at 1. rewrite (get_attr_instance _ _ _ _ N).
  pose proof (parse_simulated
                (nl ++ join nl block)%string v p s R) as H.
  unfold ends_alike, ends_in in H.
  unfold bind, run_bind.
  destruct (parse _ p) as [[m rest]|e|].
  - destruct H as (rv & more & -> & Rm). now exists rv, more.
  - destruct H as (more & ->). now exists more.
  - now rewrite H.
Qed.

End Simulation.

Lemma ends_in_Done (lo : nat) (s : store) (v : pyval) (m : value) (rest : string) :
  reads lo s v m -> ends_in lo s (Ok (m, rest)) (Done (v, rest) s).
Proof. intros R. exists v, []. rewrite app_nil_r. auto. Qed.

(** What [match_one_of] returns for a non-empty match. *)
Lemma one_of_return_alike (lo : nat) (s : store) (v : pyval) (m : value)
  (rest : string) :
  reads lo s v m ->
  ends_in lo s
    (unwrap <- (if negb true then Ok true
                else m0 <- getitem m 0 ;; Ok (eq_str m0 "<lambda>")) ;;
     if (unwrap : bool) then m1 <- getitem m 1 ;; Ok (m1, rest) else Ok (m, rest))
    ((unwrap <~ (if negb true then ret true
                 else m0 <~ py_getitem v 0 ;; ret (py_eq_str m0 "<lambda>")) ;;
      if (unwrap : bool) then m1 <~ py_getitem v 1 ;; ret (m1, rest)
      else ret (v, rest)) s).
Proof.
  intros R. cbn [negb].
  pose proof (py_getitem_reads _ _ _ _ 0 R) as H0.
  pose proof (py_getitem_reads _ _ _ _ 1 R) as H1.
  unfold bind, run_bind.
  destruct (getitem m 0) as [m0|e|]; [| |contradiction].
  - destruct H0 as (r0 & -> & R0). unfold ret at 1.
    rewrite (py_eq_str_reads _ _ _ _ "<lambda>" R0).
    destruct (eq_str m0 "<lambda>"); [|now apply ends_in_Done].
    destruct (getitem m 1) as [m1|e|]; [| |contradiction].
    + destruct H1 as (r1 & -> & R1). now apply ends_in_Done.
    + rewrite H1. apply ends_in_Raise.
  - rewrite H0. apply ends_in_Raise.
Qed.

(** The end of [match_many], once its loops have run. *)
Lemma many_finish_alike (lo : nat) (s : store) (a : nat) (items : list pyval)
  (result : list value) (name rest : string) :
  lo <= a -> a < List.length s ->
  nth_error s a = Some (PyList items) -> reads_all lo s items result ->
  ends_in lo s
    (match result with
     | [] => Raise NoPatternFound
     | _ :: _ =>
         result <- (if Nat.eqb (List.length result) 1 then getitem (VList result) 0
                    else Ok (VList result)) ;;
         if negb (name =? "")%string then Ok (VList [VStr name; result], rest)
         else Ok (result, rest)
     end)
    ((t <~ is_true (PyRef a) ;;
      if negb t then raise NoPatternFound
      else
        n <~ py_len (PyRef a) ;;
        result <~ (if Nat.eqb n 1 then py_getitem (PyRef a) 0 else ret (PyRef a)) ;;
        if negb (name =? "")%string then
          r <~ alloc (PyList [PyStr name; result]) ;; ret (r, rest)
        else ret (result, rest)) s).
Proof.
  intros L La N A.
  assert (R : reads lo s (PyRef a) (VList result)) by (econstructor; eauto).
  unfold run_bind at 1. rewrite (is_true_reads _ _ _ _ R).
  destruct result as [|x result]; cbn [truthy negb]; [apply ends_in_Raise|].
  unfold run_bind at 1. rewrite (py_len_reads _ _ _ _ _ N A).
  apply (step_value (ends_in lo s) lo s).
  { destruct (Nat.eqb (List.length (x :: result)) 1);
      [now apply same_value_getitem | now apply same_value_Ok]. }
  2: { intros e. apply ends_in_Raise. }
  intros x1 v1 R1.
  destruct (negb (name =? "")%string).
  - apply ends_in_new_pair; [lia | exact R1].
  - now apply ends_in_Done.
Qed.

Section SimulationOfOptions.

Variable parse : string -> pattern -> outcome parsed.
Variable run_parse : string -> pyval -> M (pyval * string).
Hypothesis parse_simulated : simulates parse run_parse.

Lemma run_one_of_loop_alike (s0 : store) (items : list pyval) (ps : list pattern)
  (text name : string) :
  repr_all s0 items ps ->
  forall more,
    ends_in (List.length s0) s0 (match_one_of parse text ps name)
      (run_one_of_loop run_parse text items (s0 ++ more)).
Proof.
  induction 1 as [|v p items ps Rv _ IH]; intros more.
  - simpl. now exists more.
  - pose proof (parse_simulated text v p (s0 ++ more) (repr_grows _ _ _ _ Rv)) as H.
    unfold ends_alike, ends_in in H. cbn [match_one_of run_one_of_loop].
    destruct (parse text p) as [[m rest]|e|].
    + destruct H as (rv & more1 & -> & R).
      unfold run_bind at 1. rewrite (is_true_reads _ _ _ _ R).
      destruct (truthy m).
      * apply ends_in_base with (more0 := more).
        apply ends_in_base with (more0 := more1).
        apply one_of_return_alike.
        eapply reads_lower; [|exact R]. rewrite length_app. lia.
      * rewrite <- app_assoc. apply IH.
    + destruct H as (more1 & ->).
      destruct e; try (exists (more ++ more1); now rewrite app_assoc).
      rewrite <- app_assoc. apply IH.
    + now rewrite H.
Qed.

Lemma run_match_one_of_alike (s : store) (a : nat) (text : string)
  (items : list pyval) (ps : list pattern) (name : string) :
  nth_error s a = Some (PyInst cOneOf (PyTuple items)) -> repr_all s items ps ->
  ends_alike s (match_one_of parse text ps name)
    (run_match_one_of run_parse text (PyRef a) name s).
Proof.
  intros N R. unfold ends_alike, run_match_one_of.
  unfold run_bind at 1. rewrite (get_attr_instance _ _ _ _ N).
  pose proof (run_one_of_loop_alike s items ps text name R []) as H.
  now rewrite app_nil_r in H.
Qed.

Lemma run_many_for_alike (s0 : store) (items : list pyval) (ps : list pattern) :
  repr_all s0 items ps ->
  forall more ritems st,
    reads_all (S (List.length s0)) (s0 ++ PyList ritems :: more) ritems
      (st_result st) ->
    pass_alike s0 (many_for parse ps st)
      (run_many_for run_parse items (PyRef (List.length s0)) (st_rest st)
         (st_match_made st) (s0 ++ PyList ritems :: more)).
Proof.
  induction 1 as [|v p items ps Rv _ IH]; intros more ritems st A.
  - simpl. eauto.
  - pose proof (parse_simulated (st_rest st) v p (s0 ++ PyList ritems :: more)
                  (repr_grows _ _ _ _ Rv)) as H.
    unfold ends_alike, ends_in in H. cbn [many_for run_many_for].
    destruct (parse (st_rest st) p) as [[m rest]|e|].
    + destruct H as (rv & more1 & -> & R).
      unfold run_bind at 1. rewrite (is_true_reads _ _ _ _ R).
      destruct (truthy m).
      * pose proof (run_many_unlabel_reads _ _ _ _ R) as U.
        unfold bind at 1. unfold run_bind at 1.
        destruct (many_unlabel m) as [x|e|]; [| |contradiction].
        -- destruct U as (rx & -> & Rx).
           unfold run_bind at 1.
           rewrite store_with_result_app, list_append_result.
           apply (IH (more ++ more1) (ritems ++ [rx])
                    {| st_result := st_result st ++ [x]; st_rest := rest;
                       st_match_made := true |}).
           now apply results_after_append.
        -- rewrite U, store_with_result_app. simpl. eauto.
      * rewrite store_with_result_app.
        apply (IH (more ++ more1) ritems
                 {| st_result := st_result st; st_rest := rest;
                    st_match_made := st_match_made st |}).
        now apply results_after_skip.
    + destruct H as (more1 & ->). rewrite store_with_result_app.
      destruct e; simpl; eauto.
      apply (IH (more ++ more1) ritems st). now apply results_after_skip.
    + now rewrite H.
Qed.

Lemma run_many_while_alike (s0 : store) (a : nat) (items : list pyval)
  (ps : list pattern) :
  nth_error s0 a = Some (PyInst cMany (PyTuple items)) -> repr_all s0 items ps ->
  forall fuel more ritems result rest,
    reads_all (S (List.length s0)) (s0 ++ PyList ritems :: more) ritems result ->
    results_alike s0 (many_while parse fuel ps result rest)
      (run_many_while run_parse fuel (PyRef a) (PyRef (List.length s0)) rest
         (s0 ++ PyList ritems :: more)).
Proof.
  intros N Rp. induction fuel as [|fuel IH]; intros more ritems result rest A;
    cbn [many_while run_many_while]; destruct (rest =? "")%string;
    try (simpl; eauto; fail).
  unfold run_bind at 1.
  rewrite (get_attr_instance _ _ _ _ (nth_error_old _ _ _ _ N)).
  pose proof (run_many_for_alike s0 items ps Rp more ritems
                {| st_result := result; st_rest := rest; st_match_made := false |} A)
    as H.
  cbn [st_result st_rest st_match_made] in H. unfold pass_alike in H.
  unfold bind at 1. unfold run_bind at 1.
  destruct (many_for parse ps _) as [st|e|].
  - destruct H as (more' & ritems' & -> & A').
    destruct (st_match_made st); cbn [negb].
    + now apply IH.
    + simpl. eauto.
  - destruct H as (more' & ritems' & ->). simpl. eauto.
  - now rewrite H.
Qed.

Lemma run_match_many_alike (s : store) (a : nat) (fuel : nat) (text : string)
  (items : list pyval) (ps : list pattern) (name : string) :
  nth_error s a = Some (PyInst cMany (PyTuple items)) -> repr_all s items ps ->
  ends_alike s (match_many parse fuel text ps name)
    (run_match_many run_parse fuel text (PyRef a) name s).
Proof.
  intros N Rp. unfold ends_alike, match_many, run_match_many.
  unfold run_bind at 1. unfold alloc at 1.
  pose proof (run_many_while_alike s a items ps N Rp fuel [] [] [] text
                (reads_nil _ _)) as H.
  unfold results_alike in H. simpl app in H.
  unfold bind at 1. unfold run_bind at 1.
  destruct (many_while parse fuel ps [] text) as [[result rest]|e|].
  - destruct H as (more' & ritems' & -> & A).
    apply ends_in_base with (more0 := PyList ritems' :: more').
    apply (many_finish_alike _ _ _ ritems').
    + lia.
    + rewrite length_app. simpl. lia.
    + apply nth_error_first_new.
    + eapply reads_all_lower; [|exact A]. lia.
  - destruct H as (more' & ritems' & ->). now exists (PyList ritems' :: more').
  - now rewrite H.
Qed.

End SimulationOfOptions.

(** ** The dispatch *)

Section Dispatch.

Variable producers : nat -> producer.
Variable funcs : nat -> func.
Variable n : nat.
Hypothesis sub_patterns_simulated :
  simulates (do_parse funcs n) (run_do_parse producers n).

(** The dispatch of [do_parse] on the type of the pattern, once the pattern
    and its name are known. *)
Lemma dispatch_alike (text name : string) (s : store) (v : pyval) (p : pattern) :
  repr s v p ->
  ends_alike s
    (match p with
     | Str str => match_text text str name
     | Tuple ps => match_tuple (do_parse funcs n) text ps name
     | Some_ c => match_some text c name
     | Words letters => match_words text letters name
     | Ignore q => match_ignore (do_parse funcs n) text q name
     | OneOf options => match_one_of (do_parse funcs n) text options name
     | Many options => match_many (do_parse funcs n) n text options name
     | Not str => match_not text str name
     | Optional q => match_optional (do_parse funcs n) text q name
     | Indented q => match_indented (do_parse funcs n) text q name
     | Callable _ | Other => Raise UnknownMatcherType
     end)
    (match v with
     | PyStr str => run_match_text text str name
     | PyTuple items => run_match_tuple (run_do_parse producers n) text items name
     | PyRef _ =>
         o <~ deref v ;;
         match o with
         | PyInst cSome _ => run_match_some text v name
         | PyInst cWords _ => run_match_words text v name
         | PyInst cIgnore _ =>
             run_match_ignore (run_do_parse producers n) text v name
         | PyInst cOneOf _ =>
             run_match_one_of (run_do_parse producers n) text v name
         | PyInst cMany _ =>
             run_match_many (run_do_parse producers n) n text v name
         | PyInst cNot _ => run_match_not text v name
         | PyInst cOptional _ =>
             run_match_optional (run_do_parse producers n) text v name
         | PyInst cIndented _ =>
             run_match_indented (run_do_parse producers n) text v name
         | PyList _ => raise UnknownMatcherType
         end
     | PyFunc _ | PyOther => raise UnknownMatcherType
     end s).
Proof.
  destruct 1 as [str | items ps A | a c N | a letters N | a v p N R
                | a items ps N A | a items ps N A | a forbidden N
                | a v p N R | a v p N R | f | ];
    try (unfold run_bind at 1, deref; rewrite N).
  - apply run_match_text_alike.
  - now apply run_match_tuple_alike.
  - now apply run_match_some_alike.
  - now apply run_match_words_alike.
  - eapply run_match_ignore_alike; eauto.
  - eapply run_match_one_of_alike; eauto.
  - eapply run_match_many_alike; eauto.
  - now apply run_match_not_alike.
  - eapply run_match_optional_alike; eauto.
  - eapply run_match_indented_alike; eauto.
  - apply ends_in_Raise.
  - apply ends_in_Raise.
Qed.

End Dispatch.

(** The engine over the store ends as the engine on patterns does, when the
    functions of the program are pure producers of the rules of the
    grammar. *)
Lemma run_do_parse_simulates (producers : nat -> producer) (bodies : nat -> pattern) :
  returns_always producers bodies ->
  forall n,
    simulates (do_parse (grammar_of producers bodies) n) (run_do_parse producers n).
Proof.
  intros Hp. induction n as [|n IH]; intros text v p s R; [reflexivity|].
  pose proof (dispatch_alike producers (grammar_of producers bodies) n IH) as D.
  pose proof R as R'.
  destruct R; try exact (D text ""%string s _ _ R').
  cbn [do_parse get_pattern_info grammar_of __name__ call].
  cbn [run_do_parse]. unfold run_bind at 1. unfold run_get_pattern_info.
  destruct (Hp f s) as (v' & more & E & Rb). rewrite E.
  apply ends_in_base with (more0 := more).
  eapply ends_in_lower; [|exact (D text _ (s ++ more) v' (bodies f) Rb)].
  rewrite length_app. lia.
Qed.

(** ** Two parses of the same pattern *)



